(** * Bottom-up enumerative synthesis for the regex-like string language

    A shallow embedding of [string_compress.py] (the same engine is repeated
    verbatim at the end of [openai_comp_lang.py]): the [StringTree] programs,
    the [StringLanguage] grammar with its interpreter and renderer, the
    observational-equivalence filter and the bottom-up search loop. *)

From Stdlib Require Import ZArith Ascii DecimalString DecimalFacts DecimalPos.
From stdpp Require Import base list gmap strings sets.

#[local] Set Warnings "-clear-no-such-hyp".


(** ** Python values used by the program *)

(** [for term in s] over a Python [str] yields its one-character strings. *)
Fixpoint iter_str (s : string) : list string :=
  match s with
  | EmptyString => []
  | String c s' => String c EmptyString :: iter_str s'
  end.

(** [n * s] for an [int] n and a [str] s: [s] repeated n times, the empty
    string when n <= 0. *)
Fixpoint str_times (n : nat) (s : string) : string :=
  match n with
  | O => ""
  | S k => s +:+ str_times k s
  end.

Definition int_mul_str (n : Z) (s : string) : string := str_times (Z.to_nat n) s.

(** [f'{n}'] for an [int]: its decimal numeral. *)
Definition format_int (n : Z) : string := NilZero.string_of_int (Z.to_int n).

(** ** Program trees *)

(** [StringTree = namedtuple('StringTree', ['content', 'name', 'child'])].
    The program builds a node in three places only, each with a literal
    [name]: ['terminal'] (content a [str], child [None]), ['repeat'] (content
    an [int]) and ['group'] (content a [str]).  The tag and the payload it
    fixes become the constructor. *)
Inductive StringTree : Type :=
| Terminal (content : string)
| Repeat (content : Z) (child : StringTree)
| Group (content : string) (child : StringTree).

Global Instance StringTree_eq_dec : EqDecision StringTree.
Proof. solve_decision. Defined.

(** The invariants the data model asks of a tree: a terminal or group symbol
    is a single character, a repetition count is at least 2. *)
Fixpoint well_formed (node : StringTree) : Prop :=
  match node with
  | Terminal content => String.length content = 1
  | Repeat content child => (2 ≤ content)%Z ∧ well_formed child
  | Group content child => String.length content = 1 ∧ well_formed child
  end.

(** ** The language *)

(** The attributes [StringLanguage.__init__] sets.  [rules] is the list
    of the two bound methods, see [rules] below. *)
Record StringLanguage : Type := mkStringLanguage {
  terminals : string;
  nums : list Z
}.

(** [StringLanguage()] *)
Definition StringLanguage_init : StringLanguage :=
  {| terminals := "abc"; nums := [2; 3; 4]%Z |}.

Definition repeat (self : StringLanguage) (expr : StringTree) : list StringTree :=
  map (fun num => Repeat num expr) (nums self).

Definition group (self : StringLanguage) (expr : StringTree) : list StringTree :=
  map (fun term => Group term expr) (iter_str (terminals self)).

Definition rules (self : StringLanguage) : list (StringTree -> list StringTree) :=
  [repeat self; group self].

Definition initial (self : StringLanguage) : list StringTree :=
  map (fun term => Terminal term) (iter_str (terminals self)).

(** The nested generator loops of [grow], collected into the list that
    [list(language.grow(programs))] builds. *)
Fixpoint yield_from_rules (rs : list (StringTree -> list StringTree))
    (program : StringTree) : list StringTree :=
  match rs with
  | [] => []
  | rule :: rs' => rule program ++ yield_from_rules rs' program
  end.

Fixpoint grow (self : StringLanguage) (programs : list StringTree) : list StringTree :=
  match programs with
  | [] => []
  | program :: rest =>
      program :: yield_from_rules (rules self) program ++ grow self rest
  end.

(** [interpret] and [render] read no attribute of [self]. *)
Fixpoint interpret (node : StringTree) : string :=
  match node with
  | Terminal content => content
  | Repeat content child => int_mul_str content (interpret child)
  | Group content child => content +:+ interpret child
  end.

Fixpoint render (node : StringTree) : string :=
  match node with
  | Terminal content => content
  | Repeat content child => format_int content +:+ "(" +:+ render child +:+ ")"
  | Group content child => content +:+ "(" +:+ render child +:+ ")"
  end.

(** ** The equivalence filter *)

(** The body of the [for] loop of [filter_observationally_equivalent], with
    the [seen] set threaded through. *)
Fixpoint filter_loop (seen : gset string) (programs : list StringTree)
    : list StringTree :=
  match programs with
  | [] => []
  | program :: rest =>
      let output := interpret program in
      if decide (output ∉ seen)
      then program :: filter_loop ({[output]} ∪ seen) rest
      else filter_loop seen rest
  end.

Definition filter_observationally_equivalent {I : Type}
    (language : StringLanguage) (programs : list StringTree) (inputs : I)
    : list StringTree :=
  filter_loop ∅ programs.

(** ** The search driver *)

(** The [for program in programs: if interpret(program) == outputs: return]
    scan: the first program whose output is the target. *)
Fixpoint scan (outputs : string) (programs : list StringTree) : option StringTree :=
  match programs with
  | [] => None
  | program :: rest =>
      if String.eqb (interpret program) outputs then Some program
      else scan outputs rest
  end.

(** One pass of the body of [while True], up to the scan: extend, then
    filter. *)
Definition round {I : Type} (language : StringLanguage) (inputs : I)
    (programs : list StringTree) : list StringTree :=
  let programs := programs ++ grow language programs in
  filter_observationally_equivalent language programs inputs.

(** The [while True] loop, run for at most [fuel] passes.  [None] means the
    loop is still running after [fuel] passes.  Beside the returned program
    the loop counts the calls of [grow] made so far (a ghost counter). *)
Fixpoint bottom_up_loop {I : Type} (fuel : nat) (language : StringLanguage)
    (inputs : I) (outputs : string) (programs : list StringTree)
    (grown : nat) : option (StringTree * nat) :=
  match fuel with
  | O => None
  | S fuel' =>
      let programs := round language inputs programs in
      match scan outputs programs with
      | Some program => Some (program, S grown)
      | None => bottom_up_loop fuel' language inputs outputs programs (S grown)
      end
  end.

Definition bottom_up_run {I : Type} (fuel : nat) (language : StringLanguage)
    (inputs : I) (outputs : string) : option (StringTree * nat) :=
  bottom_up_loop fuel language inputs outputs (initial language) 0.

Definition bottom_up_explicit {I : Type} (fuel : nat) (language : StringLanguage)
    (inputs : I) (outputs : string) : option StringTree :=
  fst <$> bottom_up_run fuel language inputs outputs.

(** The number of [grow] calls made by the time [bottom_up_explicit]
    returns. *)
Definition generator_steps {I : Type} (fuel : nat) (language : StringLanguage)
    (inputs : I) (outputs : string) : option nat :=
  snd <$> bottom_up_run fuel language inputs outputs.

(** ** Reference notions the properties are stated with *)

(** A string concatenated with itself [n] times, as the join of [n] copies. *)
Definition concat_copies (n : nat) (s : string) : string :=
  String.concat "" (replicate n s).


(** What one program contributes to a generator step: itself, one [Repeat]
    per count, one [Group] per symbol. *)
Definition expansions (self : StringLanguage) (p : StringTree) : list StringTree :=
  p :: map (fun n => Repeat n p) (nums self)
    ++ map (fun s => Group s p) (iter_str (terminals self)).

Definition is_repeat_of (p q : StringTree) : bool :=
  match q with
  | Repeat _ c => bool_decide (c = p)
  | _ => false
  end.

Definition is_group_of (p q : StringTree) : bool :=
  match q with
  | Group _ c => bool_decide (c = p)
  | _ => false
  end.

(** Position [i] of the sequence survives the filter when the output of its
    program occurs at no earlier position. *)
Definition keeps (programs : list StringTree) (i : nat) : option StringTree :=
  match programs !! i with
  | Some p =>
      if decide (interpret p ∈ interpret <$> take i programs) then None
      else Some p
  | None => None
  end.

Definition survivors (programs : list StringTree) : list StringTree :=
  omap (keeps programs) (seq 0 (length programs)).

(** The collapsed frontier the driver scans in its [k]-th pass. *)
Definition frontier {I : Type} (language : StringLanguage) (inputs : I)
    (k : nat) : list StringTree :=
  Nat.iter k (round language inputs) (initial language).

(** The finite programs over the alphabet and the counts of a language. *)
Inductive producible (self : StringLanguage) : StringTree → Prop :=
| producible_terminal s :
    s ∈ iter_str (terminals self) → producible self (Terminal s)
| producible_repeat n c :
    n ∈ nums self → producible self c → producible self (Repeat n c)
| producible_group s c :
    s ∈ iter_str (terminals self) → producible self c →
    producible self (Group s c).

(** The characters of a string. *)
Fixpoint chars (s : string) : list Ascii.ascii :=
  match s with
  | EmptyString => []
  | String c s' => c :: chars s'
  end.

(** The nesting depth of a program: the number of rule applications above
    its terminal. *)
Fixpoint height (node : StringTree) : nat :=
  match node with
  | Terminal _ => 0
  | Repeat _ child => S (height child)
  | Group _ child => S (height child)
  end.

(** The chain of group nodes that spells the string [String c s] symbol by
    symbol. *)
Fixpoint spell (c : ascii) (s : string) : StringTree :=
  match s with
  | EmptyString => Terminal (String c EmptyString)
  | String c' s' => Group (String c EmptyString) (spell c' s')
  end.

(** ** The table of string transforms

    The [rule] lambdas of [synthetic_grammar] in [openai_comp_lang.py] that
    work character by character or by position.  The entries built on
    [str.lower], [str.upper] and [str.split] depend on the character tables
    of Python and are not modelled. *)

(** [c in lit] for a one-character string [c] and a literal [lit]. *)
Fixpoint char_in (c : ascii) (lit : string) : bool :=
  match lit with
  | EmptyString => false
  | String d lit' => Ascii.eqb c d || char_in c lit'
  end.

(** ["".join(char for char in s if keep(char))] *)
Fixpoint join_if (keep : ascii → bool) (s : string) : string :=
  match s with
  | EmptyString => ""
  | String c s' => if keep c then String c (join_if keep s') else join_if keep s'
  end.

(** ["".join(char for i, char in enumerate(s) if keep(i))], the enumeration
    having reached index [i]. *)
Fixpoint join_enumerate_if (keep : nat → bool) (i : nat) (s : string) : string :=
  match s with
  | EmptyString => ""
  | String c s' =>
      if keep i then String c (join_enumerate_if keep (S i) s')
      else join_enumerate_if keep (S i) s'
  end.

(** [s.replace(old, new)] for a one-character [old]. *)
Fixpoint replace_char (old : ascii) (new : string) (s : string) : string :=
  match s with
  | EmptyString => ""
  | String c s' =>
      (if Ascii.eqb c old then new else String c "") +:+ replace_char old new s'
  end.

Fixpoint str_drop (n : nat) (s : string) : string :=
  match n, s with
  | S n', String _ s' => str_drop n' s'
  | _, _ => s
  end.

Fixpoint str_take (n : nat) (s : string) : string :=
  match n, s with
  | S n', String c s' => String c (str_take n' s')
  | _, _ => ""
  end.

(** A slice bound as Python resolves it against a length: a negative index
    counts from the end, and the result is clamped to [0, len]. *)
Definition slice_bound (len : nat) (i : Z) : nat :=
  Z.to_nat (if (i <? 0)%Z then Z.max (i + Z.of_nat len) 0
            else Z.min i (Z.of_nat len)).

(** [s[start:stop]], an omitted bound being [None]. *)
Definition py_slice (start stop : option Z) (s : string) : string :=
  let len := String.length s in
  let lo := match start with Some i => slice_bound len i | None => 0 end in
  let hi := match stop with Some i => slice_bound len i | None => len end in
  str_take (hi - lo) (str_drop lo s).

(** [lambda s : s.replace(" ", "!")] *)
Definition replace_spaces (s : string) : string := replace_char " " "!" s.

(** [lambda s : s[2:-2]] *)
Definition remove_first_two_chars (s : string) : string :=
  py_slice (Some 2%Z) (Some (-2)%Z) s.

(** [lambda s : "".join(char for char in s if char not in "aeiouAEIOU")] *)
Definition remove_vowels (s : string) : string :=
  join_if (λ char, negb (char_in char "aeiouAEIOU")) s.

(** [lambda s : "".join(char for i, char in enumerate(s) if i % 3 != 0)] *)
Definition remove_every_third (s : string) : string :=
  join_enumerate_if (λ i, negb (i mod 3 =? 0)) 0 s.

(** [lambda s : s[: len(s) // 2]] *)
Definition drop_last_half (s : string) : string :=
  py_slice None (Some (Z.of_nat (String.length s / 2))) s.

(** [lambda s : s.replace(" ", "   ")] *)
Definition replace_spaces_with_triple_space (s : string) : string :=
  replace_char " " "   " s.

(** [lambda s : "".join([x for x in s if x not in ".!?"])] *)
Definition delete_punctuation (s : string) : string :=
  join_if (λ x, negb (char_in x ".!?")) s.

(** The number of occurrences of a character, [s.count(c)]. *)
Fixpoint count_char (c : ascii) (s : string) : nat :=
  match s with
  | EmptyString => 0
  | String d s' => (if Ascii.eqb d c then 1 else 0) + count_char c s'
  end.

(** ** Decimal numerals

    What a printed count has to be is said without the printer: by the
    number a numeral denotes and by the shape of a numeral as Python prints
    it. *)







(** ** Strings *)

Section strings.
Implicit Types s t : string.

Lemma string_app_cons c s t : String c s +:+ t = String c (s +:+ t).
Proof. reflexivity. Qed.

Lemma string_app_nil_r s : s +:+ "" = s.
Proof.
  induction s as [|c s IH]; [done|].
  by rewrite string_app_cons, IH.
Qed.

Lemma string_length_app s t :
  String.length (s +:+ t) = String.length s + String.length t.
Proof.
  induction s as [|c s IH]; [done|].
  rewrite string_app_cons. simpl. by rewrite IH.
Qed.

Lemma str_times_length n s :
  String.length (str_times n s) = n * String.length s.
Proof.
  induction n as [|n IH]; [done|].
  change (str_times (S n) s) with (s +:+ str_times n s).
  rewrite string_length_app, IH. lia.
Qed.

Lemma concat_empty_cons s (l : list string) :
  String.concat "" (s :: l) = s +:+ String.concat "" l.
Proof.
  destruct l as [|t l]; [|done].
  change (s = s +:+ ""). by rewrite string_app_nil_r.
Qed.

Lemma str_times_concat_copies n s : str_times n s = concat_copies n s.
Proof.
  unfold concat_copies. induction n as [|n IH]; [done|].
  change (replicate (S n) s) with (s :: replicate n s).
  by rewrite concat_empty_cons, <- IH.
Qed.

Lemma iter_str_length s : length (iter_str s) = String.length s.
Proof. induction s as [|c s IH]; simpl; [done | by f_equal]. Qed.

Lemma iter_str_one_char s x : x ∈ iter_str s → String.length x = 1.
Proof.
  induction s as [|c s IH]; simpl; [by intros ?%elem_of_nil|].
  intros [->|?]%elem_of_cons; [done | auto].
Qed.
End strings.

(** ** Interpreter and renderer *)

(** C3: the interpreter by cases on a well-formed tree.  A terminal gives its
    content, one character long; a repeat node the child's output
    concatenated with itself count times, of count times the child's length;
    a group node the symbol followed by the child's output, one longer than
    the child's. *)
Theorem interpret_by_cases (t : StringTree) :
  well_formed t →
  match t with
  | Terminal s => interpret t = s ∧ String.length (interpret t) = 1
  | Repeat n c =>
      interpret t = concat_copies (Z.to_nat n) (interpret c)
      ∧ Z.of_nat (String.length (interpret t))
        = (n * Z.of_nat (String.length (interpret c)))%Z
  | Group s c =>
      interpret t = s +:+ interpret c
      ∧ String.length (interpret t) = 1 + String.length (interpret c)
  end.
Proof.
  destruct t as [s|n c|s c]; simpl.
  - intros Hs. by split.
  - intros [Hn _]. unfold int_mul_str. split.
    + apply str_times_concat_copies.
    + rewrite str_times_length. lia.
  - intros [Hs _]. split; [done|].
    by rewrite string_length_app, Hs.
Qed.

Lemma interpret_by_cases_witness :
  well_formed (Repeat 3 (Group "a" (Terminal "b")))
  ∧ interpret (Repeat 3 (Group "a" (Terminal "b"))) = "ababab"
  ∧ Z.of_nat (String.length (interpret (Repeat 3 (Group "a" (Terminal "b")))))
    = (3 * Z.of_nat (String.length (interpret (Group "a" (Terminal "b")))))%Z.
Proof.
  assert (Hwf : well_formed (Repeat 3 (Group "a" (Terminal "b")))).
  { simpl. repeat split; lia. }
  split; [exact Hwf|].
  destruct (interpret_by_cases (Repeat 3 (Group "a" (Terminal "b"))) Hwf)
    as [Heq Hlen].
  split; [by rewrite Heq | exact Hlen].
Defined.

(** ** The generator *)

Section generator.
Variable self : StringLanguage.

Lemma yield_from_rules_expansions p :
  p :: yield_from_rules (rules self) p = expansions self p.
Proof.
  unfold expansions, rules, repeat, group. simpl.
  by rewrite app_nil_r.
Qed.

Lemma grow_cons p P : grow self (p :: P) = expansions self p ++ grow self P.
Proof. by rewrite <- yield_from_rules_expansions. Qed.

Lemma grow_concat P : grow self P = concat (map (expansions self) P).
Proof.
  induction P as [|p P IH]; [done|].
  by rewrite grow_cons, IH.
Qed.

Lemma grow_app P Q : grow self (P ++ Q) = grow self P ++ grow self Q.
Proof.
  induction P as [|p P IH]; [done|].
  rewrite <- app_comm_cons, !grow_cons, IH. by rewrite app_assoc.
Qed.

Lemma grow_retains P : Forall (λ p, p ∈ grow self P) P.
Proof.
  induction P as [|p P IH]; constructor.
  - rewrite grow_cons. apply elem_of_app. left. unfold expansions. left.
  - eapply Forall_impl; [exact IH|]. intros q Hq. simpl in Hq.
    rewrite grow_cons. apply elem_of_app. by right.
Qed.

Lemma expansions_length p :
  length (expansions self p)
  = 1 + length (nums self) + String.length (terminals self).
Proof.
  unfold expansions. simpl.
  rewrite length_app, !length_map, iter_str_length. lia.
Qed.

Lemma grow_length P :
  length (grow self P)
  = length P * (1 + length (nums self) + String.length (terminals self)).
Proof.
  induction P as [|p P IH]; [done|].
  rewrite grow_cons, length_app, expansions_length, IH. simpl. lia.
Qed.
End generator.

(** No tree is its own child. *)
Lemma Repeat_neq_child n p : Repeat n p ≠ p.
Proof.
  revert n. induction p as [s|m c IH|s c IH]; intros n Heq; try discriminate.
  injection Heq as -> Hc. by apply (IH m).
Qed.

Lemma Group_neq_child s p : Group s p ≠ p.
Proof.
  revert s. induction p as [u|m c IH|u c IH]; intros s Heq; try discriminate.
  injection Heq as -> Hc. by apply (IH u).
Qed.

Lemma is_repeat_of_self p : is_repeat_of p p = false.
Proof.
  destruct p as [s|n c|s c]; simpl; try done.
  apply bool_decide_eq_false. intros Heq. by apply (Repeat_neq_child n c).
Qed.

Lemma is_group_of_self p : is_group_of p p = false.
Proof.
  destruct p as [s|n c|s c]; simpl; try done.
  apply bool_decide_eq_false. intros Heq. by apply (Group_neq_child s c).
Qed.

Lemma filter_map_all {A B} (f : B → bool) (g : A → B) (l : list A) :
  (∀ x, f (g x) = true) → List.filter f (map g l) = map g l.
Proof.
  intros Hf. induction l as [|x l IH]; simpl; [done|].
  by rewrite Hf, IH.
Qed.

Lemma filter_map_none {A B} (f : B → bool) (g : A → B) (l : list A) :
  (∀ x, f (g x) = false) → List.filter f (map g l) = [].
Proof.
  intros Hf. induction l as [|x l IH]; simpl; [done|].
  by rewrite Hf, IH.
Qed.

Lemma expansions_repeats self p :
  List.filter (is_repeat_of p) (expansions self p)
  = map (λ n, Repeat n p) (nums self).
Proof.
  unfold expansions. simpl. rewrite is_repeat_of_self, List.filter_app.
  rewrite filter_map_all, filter_map_none, app_nil_r; [done|done|].
  intros n. simpl. by apply bool_decide_eq_true.
Qed.

Lemma expansions_groups self p :
  List.filter (is_group_of p) (expansions self p)
  = map (λ s, Group s p) (iter_str (terminals self)).
Proof.
  unfold expansions. simpl. rewrite is_group_of_self, List.filter_app.
  rewrite filter_map_none, filter_map_all; [done| |done].
  intros s. simpl. by apply bool_decide_eq_true.
Qed.

(** C4: one generator step visits the programs in their order and yields for
    each one the program itself, then one [Repeat] per count in count order
    (2, 3, 4), then one [Group] per symbol in alphabet order (a, b, c).  Every
    program is still present, and each gains as many repeat expansions as
    there are counts and as many group expansions as there are symbols. *)
Theorem grow_step (self : StringLanguage) (P : list StringTree) :
  grow self P = concat (map (expansions self) P)
  ∧ grow StringLanguage_init P
    = concat (map (λ p, [p; Repeat 2 p; Repeat 3 p; Repeat 4 p;
                         Group "a" p; Group "b" p; Group "c" p]) P)
  ∧ Forall (λ p, p ∈ grow self P) P
  ∧ Forall (λ p,
      List.filter (is_repeat_of p) (expansions self p)
        = map (λ n, Repeat n p) (nums self)
      ∧ length (List.filter (is_repeat_of p) (expansions self p))
        = length (nums self)
      ∧ List.filter (is_group_of p) (expansions self p)
        = map (λ s, Group s p) (iter_str (terminals self))
      ∧ length (List.filter (is_group_of p) (expansions self p))
        = String.length (terminals self)) P
  ∧ length (grow self P)
    = length P * (1 + length (nums self) + String.length (terminals self)).
Proof.
  split; [apply grow_concat|].
  split; [apply grow_concat|].
  split; [apply grow_retains|].
  split; [|apply grow_length].
  apply Forall_forall. intros p _.
  rewrite expansions_repeats, expansions_groups, !length_map, iter_str_length.
  done.
Qed.

(** ** The equivalence filter *)

Section filter.
Implicit Types (seen : gset string) (programs pre rest : list StringTree).

Lemma filter_loop_keep seen p rest :
  interpret p ∉ seen →
  filter_loop seen (p :: rest)
  = p :: filter_loop ({[interpret p]} ∪ seen) rest.
Proof. intros Hp. simpl. by rewrite decide_True. Qed.

Lemma filter_loop_drop seen p rest :
  interpret p ∈ seen → filter_loop seen (p :: rest) = filter_loop seen rest.
Proof. intros Hp. simpl. rewrite decide_False; [done|]. by intros []. Qed.

Lemma omap_cons_unfold {A B} (f : A → option B) x (l : list A) :
  omap f (x :: l)
  = match f x with Some y => y :: omap f l | None => omap f l end.
Proof. reflexivity. Qed.

Lemma keeps_middle pre p rest :
  keeps (pre ++ p :: rest) (length pre)
  = if decide (interpret p ∈ interpret <$> pre) then None else Some p.
Proof.
  unfold keeps. by rewrite list_lookup_middle, take_app_length.
Qed.

(** The loop invariant: [seen] holds the outputs of the programs already
    visited. *)
Lemma filter_loop_survivors pre rest :
  filter_loop (list_to_set (interpret <$> pre)) rest
  = omap (keeps (pre ++ rest)) (seq (length pre) (length rest)).
Proof.
  revert pre. induction rest as [|p rest IH]; intros pre; [done|].
  change (seq (length pre) (length (p :: rest)))
    with (length pre :: seq (S (length pre)) (length rest)).
  rewrite omap_cons_unfold, keeps_middle.
  specialize (IH (pre ++ [p])).
  rewrite <- app_assoc, length_app, Nat.add_1_r in IH. simpl in IH.
  rewrite <- IH.
  destruct (decide (interpret p ∈ interpret <$> pre)) as [Hin|Hnin].
  - rewrite filter_loop_drop by (by apply elem_of_list_to_set).
    f_equal. rewrite fmap_app, list_to_set_app_L. simpl.
    set_solver.
  - rewrite filter_loop_keep by (by rewrite elem_of_list_to_set).
    do 2 f_equal. rewrite fmap_app, list_to_set_app_L. simpl. set_solver.
Qed.

Lemma filter_loop_fresh seen programs q :
  q ∈ filter_loop seen programs → interpret q ∉ seen.
Proof.
  revert seen. induction programs as [|p rest IH]; intros seen.
  - by intros ?%elem_of_nil.
  - destruct (decide (interpret p ∈ seen)) as [Hin|Hnin].
    + rewrite filter_loop_drop by done. apply IH.
    + rewrite filter_loop_keep by done.
      intros [->|Hq]%elem_of_cons; [done|].
      apply IH in Hq. set_solver.
Qed.

Lemma filter_loop_subseq seen programs :
  filter_loop seen programs ⊆ programs.
Proof.
  revert seen. induction programs as [|p rest IH]; intros seen; [done|].
  destruct (decide (interpret p ∈ seen)) as [Hin|Hnin].
  - rewrite filter_loop_drop by done. specialize (IH seen). set_solver.
  - rewrite filter_loop_keep by done.
    specialize (IH ({[interpret p]} ∪ seen)). set_solver.
Qed.

Lemma filter_loop_NoDup seen programs :
  NoDup (interpret <$> filter_loop seen programs).
Proof.
  revert seen. induction programs as [|p rest IH]; intros seen.
  - constructor.
  - destruct (decide (interpret p ∈ seen)) as [Hin|Hnin].
    + rewrite filter_loop_drop by done. apply IH.
    + rewrite filter_loop_keep by done. rewrite fmap_cons.
      constructor; [|apply IH].
      intros (q & Hq & Hin)%list_elem_of_fmap.
      apply filter_loop_fresh in Hin. set_solver.
Qed.
End filter.

(** ** Scanning for the target *)

Section scan.
Implicit Types (o : string) (programs pre post : list StringTree).

Lemma scan_hit o p rest : interpret p = o → scan o (p :: rest) = Some p.
Proof. intros Hp. simpl. by rewrite (proj2 (String.eqb_eq _ _) Hp). Qed.

Lemma scan_miss o p rest : interpret p ≠ o → scan o (p :: rest) = scan o rest.
Proof. intros Hp. simpl. by rewrite (proj2 (String.eqb_neq _ _) Hp). Qed.

Lemma scan_None o programs :
  scan o programs = None ↔ Forall (λ q, interpret q ≠ o) programs.
Proof.
  induction programs as [|p rest IH].
  - split; [constructor | done].
  - destruct (decide (interpret p = o)) as [Heq|Hne].
    + rewrite scan_hit by done. split; [done|].
      intros [Hp _]%Forall_cons. done.
    + rewrite scan_miss by done. rewrite IH. split.
      * intros Hrest. by constructor.
      * by intros [_ Hrest]%Forall_cons.
Qed.

Lemma scan_Some o programs p :
  scan o programs = Some p ↔
  ∃ pre post, programs = pre ++ p :: post ∧ interpret p = o
              ∧ Forall (λ q, interpret q ≠ o) pre.
Proof.
  induction programs as [|p0 rest IH].
  - split; [done|]. intros (pre & post & Heq & _). by destruct pre.
  - destruct (decide (interpret p0 = o)) as [Heq|Hne].
    + rewrite scan_hit by done. split.
      * intros [= ->]. exists [], rest. by repeat split.
      * intros (pre & post & Hl & Hp & Hpre).
        destruct pre as [|q pre]; simpl in Hl.
        -- by injection Hl as -> _.
        -- injection Hl as -> _. by apply Forall_cons in Hpre as [? _].
    + rewrite scan_miss by done. rewrite IH. split.
      * intros (pre & post & -> & Hp & Hpre).
        exists (p0 :: pre), post. repeat split; [done|]. by constructor.
      * intros (pre & post & Hl & Hp & Hpre).
        destruct pre as [|q pre]; simpl in Hl.
        -- injection Hl as -> _. done.
        -- injection Hl as -> ->. exists pre, post.
           apply Forall_cons in Hpre as [_ ?]. done.
Qed.

Lemma scan_app_Some o pre post p :
  scan o pre = Some p → scan o (pre ++ post) = Some p.
Proof.
  induction pre as [|q pre IH]; [done|].
  rewrite <- app_comm_cons.
  destruct (decide (interpret q = o)) as [Heq|Hne].
  - by rewrite !scan_hit.
  - rewrite !scan_miss by done. apply IH.
Qed.

Lemma scan_is_Some o programs t :
  t ∈ programs → interpret t = o → ∃ p, scan o programs = Some p.
Proof.
  intros Ht Ho. destruct (scan o programs) as [p|] eqn:Hscan; [eauto|].
  apply scan_None in Hscan. rewrite Forall_forall in Hscan.
  by destruct (Hscan t Ht).
Qed.

(** Filtering does not change which program the scan finds. *)
Lemma scan_filter_loop (seen : gset string) o programs :
  o ∉ seen → scan o (filter_loop seen programs) = scan o programs.
Proof.
  revert seen. induction programs as [|p rest IH]; intros seen Ho; [done|].
  destruct (decide (interpret p ∈ seen)) as [Hin|Hnin].
  - rewrite filter_loop_drop by done.
    rewrite (scan_miss o p) by congruence. by apply IH.
  - rewrite filter_loop_keep by done.
    destruct (decide (interpret p = o)) as [Heq|Hne].
    + by rewrite !scan_hit.
    + rewrite !scan_miss by done. apply IH. set_solver.
Qed.

(** Of the programs with output [o] the filter keeps the first one, and
    only that one. *)
Lemma filter_loop_seen_output (seen : gset string) o programs :
  o ∈ seen → filter (λ q, interpret q = o) (filter_loop seen programs) = [].
Proof.
  revert seen. induction programs as [|p rest IH]; intros seen Ho; [done|].
  destruct (decide (interpret p ∈ seen)) as [Hin|Hnin].
  - rewrite filter_loop_drop by done. by apply IH.
  - rewrite filter_loop_keep by done.
    rewrite filter_cons_False by congruence. apply IH. set_solver.
Qed.

Lemma filter_loop_first_output (seen : gset string) o programs p :
  o ∉ seen → scan o programs = Some p →
  filter (λ q, interpret q = o) (filter_loop seen programs) = [p].
Proof.
  revert seen. induction programs as [|p0 rest IH]; intros seen Ho; [done|].
  destruct (decide (interpret p0 = o)) as [Heq|Hne].
  - rewrite scan_hit by done. intros [= ->].
    rewrite filter_loop_keep by (intros ?; apply Ho; congruence).
    rewrite filter_cons_True by done.
    rewrite filter_loop_seen_output; [done|set_solver].
  - rewrite scan_miss by done. intros Hscan.
    destruct (decide (interpret p0 ∈ seen)) as [Hin|Hnin].
    + rewrite filter_loop_drop by done. by apply IH.
    + rewrite filter_loop_keep by done.
      rewrite filter_cons_False by done. apply IH; [set_solver|done].
Qed.
End scan.

Lemma filter_survivors {I : Type} language programs (inputs : I) :
  filter_observationally_equivalent language programs inputs
  = survivors programs.
Proof.
  unfold filter_observationally_equivalent, survivors.
  apply (filter_loop_survivors [] programs).
Qed.

Lemma keeps_later_duplicate programs i j t1 t2 :
  i < j → programs !! i = Some t1 → programs !! j = Some t2 →
  interpret t1 = interpret t2 → keeps programs j = None.
Proof.
  intros Hlt H1 H2 Heq. unfold keeps. rewrite H2.
  rewrite decide_True; [done|].
  rewrite <- Heq. apply list_elem_of_fmap. exists t1. split; [done|].
  apply (list_elem_of_lookup_2 _ i). by rewrite lookup_take_lt.
Qed.

Lemma keeps_Some programs i t :
  keeps programs i = Some t ↔
  programs !! i = Some t ∧ interpret t ∉ interpret <$> take i programs.
Proof.
  unfold keeps. destruct (programs !! i) as [p|]; [|naive_solver].
  destruct (decide (interpret p ∈ interpret <$> take i programs));
    naive_solver.
Qed.

Lemma keeps_scan programs i t :
  keeps programs i = Some t → scan (interpret t) programs = Some t.
Proof.
  intros [Hi Hfirst]%keeps_Some. apply scan_Some.
  exists (take i programs), (drop (S i) programs).
  split; [by rewrite take_drop_middle|]. split; [done|].
  apply Forall_forall. intros q Hq Heq. apply Hfirst.
  rewrite <- Heq. apply list_elem_of_fmap. by exists q.
Qed.

(** C2, as amended: the filter keeps a program exactly when its output
    occurs at no earlier position of the same sequence.  The survivors have
    pairwise different outputs, and of the programs sharing an output the
    survivors are the single one the sequence lists first.  So of two
    programs with equal outputs at most one survives: the later one is always
    dropped, and the earlier one survives exactly when it is the first with
    that output, being then the one survivor.  Each call starts from an empty
    [seen] set. *)
Theorem filter_keeps_first_occurrences {I : Type} (language : StringLanguage)
    (programs : list StringTree) (inputs : I) :
  let kept := filter_observationally_equivalent language programs inputs in
  kept = survivors programs
  ∧ (∀ i t, keeps programs i = Some t ↔
       programs !! i = Some t ∧ interpret t ∉ interpret <$> take i programs)
  ∧ NoDup (interpret <$> kept)
  ∧ Forall (λ t, ∃ p, scan (interpret t) programs = Some p
                     ∧ filter (λ q, interpret q = interpret t) kept = [p])
      programs
  ∧ (∀ i j t1 t2,
       i < j → programs !! i = Some t1 → programs !! j = Some t2 →
       interpret t1 = interpret t2 →
       keeps programs j = None
       ∧ (keeps programs i = Some t1 →
          filter (λ q, interpret q = interpret t2) kept = [t1]))
  ∧ kept = filter_loop ∅ programs.
Proof.
  intros kept. split; [apply filter_survivors|].
  split; [apply keeps_Some|].
  split; [apply filter_loop_NoDup|].
  split; [|split; [|done]].
  - apply Forall_forall. intros t Ht.
    destruct (scan_is_Some (interpret t) programs t Ht eq_refl) as [p Hp].
    exists p. split; [done|].
    apply filter_loop_first_output; [set_solver|done].
  - intros i j t1 t2 Hlt H1 H2 Heq.
    split; [by apply (keeps_later_duplicate _ i j t1 t2)|].
    intros Hfirst%keeps_scan. rewrite <- Heq.
    apply filter_loop_first_output; [set_solver|done].
Qed.

Lemma filter_keeps_first_occurrences_witness :
  filter_observationally_equivalent StringLanguage_init
    [Repeat 2 (Terminal "a"); Group "a" (Terminal "a"); Terminal "b"] ""
  = [Repeat 2 (Terminal "a"); Terminal "b"]
  ∧ keeps [Repeat 2 (Terminal "a"); Group "a" (Terminal "a"); Terminal "b"] 1
    = None.
Proof.
  split; [by vm_compute|].
  destruct (filter_keeps_first_occurrences StringLanguage_init
    [Repeat 2 (Terminal "a"); Group "a" (Terminal "a"); Terminal "b"] "")
    as (_ & _ & _ & _ & Hlater & _).
  apply (Hlater 0 1 (Repeat 2 (Terminal "a")) (Group "a" (Terminal "a")));
    [lia | reflexivity | reflexivity | reflexivity].
Defined.

(** C2 as stated fails: of two different programs with equal outputs none
    survives when a third program with that output stands before both. *)
Lemma equal_outputs_neither_survives :
  Repeat 4 (Terminal "a") ≠ Group "a" (Repeat 3 (Terminal "a"))
  ∧ interpret (Repeat 4 (Terminal "a"))
    = interpret (Group "a" (Repeat 3 (Terminal "a")))
  ∧ filter_observationally_equivalent StringLanguage_init
      [Repeat 2 (Repeat 2 (Terminal "a")); Repeat 4 (Terminal "a");
       Group "a" (Repeat 3 (Terminal "a"))] ""
    = [Repeat 2 (Repeat 2 (Terminal "a"))]
  ∧ keeps [Repeat 2 (Repeat 2 (Terminal "a")); Repeat 4 (Terminal "a");
           Group "a" (Repeat 3 (Terminal "a"))] 1 = None
  ∧ keeps [Repeat 2 (Repeat 2 (Terminal "a")); Repeat 4 (Terminal "a");
           Group "a" (Repeat 3 (Terminal "a"))] 2 = None.
Proof. repeat split; by vm_compute. Qed.

(** ** The search loop *)

Section driver.
Context {I : Type}.
Variables (language : StringLanguage) (inputs : I) (outputs : string).
Implicit Types (programs : list StringTree) (fuel grown : nat).

Lemma bottom_up_loop_found fuel programs grown p :
  scan outputs (round language inputs programs) = Some p →
  bottom_up_loop (S fuel) language inputs outputs programs grown
  = Some (p, S grown).
Proof. intros Hscan. simpl. by rewrite Hscan. Qed.

Lemma bottom_up_loop_again fuel programs grown :
  scan outputs (round language inputs programs) = None →
  bottom_up_loop (S fuel) language inputs outputs programs grown
  = bottom_up_loop fuel language inputs outputs
      (round language inputs programs) (S grown).
Proof. intros Hscan. simpl. by rewrite Hscan. Qed.

(** More fuel does not change a result already reached. *)
Lemma bottom_up_loop_mono fuel extra programs grown r :
  bottom_up_loop fuel language inputs outputs programs grown = Some r →
  bottom_up_loop (fuel + extra) language inputs outputs programs grown
  = Some r.
Proof.
  revert programs grown.
  induction fuel as [|fuel IH]; intros programs grown; [done|].
  change (S fuel + extra) with (S (fuel + extra)).
  destruct (scan outputs (round language inputs programs)) as [p|] eqn:Hscan.
  - by rewrite !(bottom_up_loop_found _ _ _ p).
  - rewrite !bottom_up_loop_again by done. apply IH.
Qed.

(** A returned program is the scan's hit in some pass, after passes
    without a hit. *)
Lemma bottom_up_loop_Some fuel programs grown p grown' :
  bottom_up_loop fuel language inputs outputs programs grown
  = Some (p, grown') →
  ∃ k, k < fuel ∧ grown' = grown + S k
       ∧ scan outputs (Nat.iter (S k) (round language inputs) programs)
         = Some p
       ∧ ∀ j, j < k →
           scan outputs (Nat.iter (S j) (round language inputs) programs)
           = None.
Proof.
  revert programs grown.
  induction fuel as [|fuel IH]; intros programs grown; [done|].
  destruct (scan outputs (round language inputs programs)) as [q|] eqn:Hscan.
  - rewrite (bottom_up_loop_found _ _ _ q) by done. intros [= -> <-].
    exists 0. repeat split; [lia|lia|done|]. intros j Hj. lia.
  - rewrite bottom_up_loop_again by done.
    intros (k & Hk & -> & Hhit & Hmiss)%IH.
    exists (S k). repeat split; [lia|lia| |].
    + by rewrite Nat.iter_succ_r.
    + intros [|j] Hj; [done|]. rewrite Nat.iter_succ_r. apply Hmiss. lia.
Qed.

(** The loop is still running after [fuel] passes when none of them had a
    hit. *)
Lemma bottom_up_loop_None fuel programs grown :
  (∀ j, j < fuel →
     scan outputs (Nat.iter (S j) (round language inputs) programs) = None) →
  bottom_up_loop fuel language inputs outputs programs grown = None.
Proof.
  revert programs grown.
  induction fuel as [|fuel IH]; intros programs grown Hmiss; [done|].
  rewrite bottom_up_loop_again by (apply (Hmiss 0); lia).
  apply IH. intros j Hj. rewrite <- Nat.iter_succ_r. apply Hmiss. lia.
Qed.

Lemma bottom_up_explicit_mono fuel extra p :
  bottom_up_explicit fuel language inputs outputs = Some p →
  bottom_up_explicit (fuel + extra) language inputs outputs = Some p.
Proof.
  unfold bottom_up_explicit, bottom_up_run.
  destruct (bottom_up_loop fuel _ _ _ _ _) as [r|] eqn:Hrun; [|done].
  by rewrite (bottom_up_loop_mono _ _ _ _ r).
Qed.

Lemma generator_steps_mono fuel extra n :
  generator_steps fuel language inputs outputs = Some n →
  generator_steps (fuel + extra) language inputs outputs = Some n.
Proof.
  unfold generator_steps, bottom_up_run.
  destruct (bottom_up_loop fuel _ _ _ _ _) as [r|] eqn:Hrun; [|done].
  by rewrite (bottom_up_loop_mono _ _ _ _ r).
Qed.

Lemma bottom_up_explicit_Some fuel p :
  bottom_up_explicit fuel language inputs outputs = Some p →
  ∃ k, k < fuel
       ∧ generator_steps fuel language inputs outputs = Some (S k)
       ∧ scan outputs (frontier language inputs (S k)) = Some p
       ∧ ∀ j, j < k → scan outputs (frontier language inputs (S j)) = None.
Proof.
  unfold bottom_up_explicit, generator_steps, bottom_up_run, frontier.
  destruct (bottom_up_loop fuel _ _ _ _ _) as [[q n]|] eqn:Hrun; [|done].
  intros [= ->].
  apply bottom_up_loop_Some in Hrun as (k & Hk & -> & Hhit & Hmiss).
  exists k. by repeat split.
Qed.

Lemma bottom_up_explicit_None fuel :
  (∀ j, j < fuel → scan outputs (frontier language inputs (S j)) = None) →
  bottom_up_explicit fuel language inputs outputs = None.
Proof.
  intros Hmiss. unfold bottom_up_explicit, bottom_up_run.
  by rewrite bottom_up_loop_None.
Qed.
End driver.

(** C5: a program the driver returns has the target as its output and is the
    first match of the scan: in the collapsed frontier of the pass that
    returns it no earlier program has the target as output, and the frontiers
    of the passes before held no match at all. *)
Theorem returned_program_is_first_match {I : Type} (fuel : nat)
    (language : StringLanguage) (inputs : I) (target : string)
    (p : StringTree) :
  bottom_up_explicit fuel language inputs target = Some p →
  interpret p = target
  ∧ ∃ k pre post,
      k < fuel
      ∧ frontier language inputs (S k) = pre ++ p :: post
      ∧ Forall (λ q, interpret q ≠ target) pre
      ∧ ∀ j, j < k →
          Forall (λ q, interpret q ≠ target) (frontier language inputs (S j)).
Proof.
  intros (k & Hk & _ & Hhit & Hmiss)%bottom_up_explicit_Some.
  apply scan_Some in Hhit as (pre & post & Hfrontier & Hp & Hpre).
  split; [done|]. exists k, pre, post. repeat split; try done.
  intros j Hj. apply scan_None. by apply Hmiss.
Qed.

Lemma returned_program_is_first_match_witness :
  bottom_up_explicit 1 StringLanguage_init "" "aaa"
  = Some (Repeat 3 (Terminal "a"))
  ∧ interpret (Repeat 3 (Terminal "a")) = "aaa".
Proof.
  assert (Hrun : bottom_up_explicit 1 StringLanguage_init "" "aaa"
                 = Some (Repeat 3 (Terminal "a"))) by (by vm_compute).
  split; [exact Hrun|].
  exact (proj1 (returned_program_is_first_match 1 StringLanguage_init ""
                  "aaa" (Repeat 3 (Terminal "a")) Hrun)).
Defined.

(** ** Programs the search can reach *)

Section reachable.
Context {I : Type}.
Variables (language : StringLanguage) (inputs : I).

Lemma initial_producible : Forall (producible language) (initial language).
Proof.
  apply Forall_forall. intros t (s & -> & Hs)%list_elem_of_fmap.
  by constructor.
Qed.

Lemma expansions_producible p :
  producible language p → Forall (producible language) (expansions language p).
Proof.
  intros Hp. unfold expansions. constructor; [done|].
  apply Forall_app. split; apply Forall_forall.
  - intros t (n & -> & Hn)%list_elem_of_fmap. by constructor.
  - intros t (s & -> & Hs)%list_elem_of_fmap. by constructor.
Qed.

Lemma grow_producible P :
  Forall (producible language) P → Forall (producible language) (grow language P).
Proof.
  induction 1 as [|p P Hp HP IH]; [constructor|].
  rewrite grow_cons. apply Forall_app. split; [|done].
  by apply expansions_producible.
Qed.

Lemma round_subseteq P : round language inputs P ⊆ P ++ grow language P.
Proof. apply filter_loop_subseq. Qed.

Lemma round_producible P :
  Forall (producible language) P →
  Forall (producible language) (round language inputs P).
Proof.
  intros HP. apply Forall_forall. intros t Ht%round_subseteq.
  revert t Ht. apply Forall_forall, Forall_app.
  split; [done | by apply grow_producible].
Qed.

Lemma frontier_producible k :
  Forall (producible language) (frontier language inputs k).
Proof.
  induction k as [|k IH]; [apply initial_producible|].
  by apply round_producible.
Qed.
End reachable.

(** Only characters of the alphabet occur in the output of a program. *)
Section alphabet.
Lemma chars_app s t : chars (s +:+ t) = chars s ++ chars t.
Proof.
  induction s as [|c s IH]; [done|].
  rewrite string_app_cons. simpl. by rewrite IH.
Qed.

Lemma chars_str_times n s c : c ∈ chars (str_times n s) → c ∈ chars s.
Proof.
  induction n as [|n IH]; [by intros ?%elem_of_nil|].
  change (str_times (S n) s) with (s +:+ str_times n s).
  rewrite chars_app. intros [?|?]%elem_of_app; auto.
Qed.

Lemma chars_iter_str s x c : x ∈ iter_str s → c ∈ chars x → c ∈ chars s.
Proof.
  induction s as [|a s IH]; simpl; [by intros ?%elem_of_nil|].
  intros [->|Hx]%elem_of_cons Hc.
  - simpl in Hc. apply elem_of_cons in Hc as [->|?%elem_of_nil]; [left|done].
  - right. by apply IH.
Qed.

Lemma interpret_chars language t c :
  producible language t → c ∈ chars (interpret t) →
  c ∈ chars (terminals language).
Proof.
  induction 1 as [s Hs|n t Hn Ht IH|s t Hs Ht IH]; simpl.
  - by apply chars_iter_str.
  - intros ?%chars_str_times. auto.
  - rewrite chars_app. intros [?|?]%elem_of_app; [|auto].
    by apply (chars_iter_str _ s).
Qed.

Lemma outside_alphabet_not_producible language target c :
  c ∈ chars target → c ∉ chars (terminals language) →
  ∀ t, producible language t → interpret t ≠ target.
Proof.
  intros Hc Hout t Ht <-. apply Hout. by apply (interpret_chars _ t).
Qed.
End alphabet.

Lemma unproducible_no_match {I : Type} language (inputs : I) target k :
  (∀ t, producible language t → interpret t ≠ target) →
  Forall (λ p, interpret p ≠ target) (frontier language inputs k).
Proof.
  intros Hno. eapply Forall_impl; [apply frontier_producible|]. apply Hno.
Qed.

(** C6: when no finite program over the alphabet and the counts has the
    target as output, no frontier of any pass holds a match and the loop is
    still running after every number of passes; a target with a character
    outside the alphabet ['abc'] is such a target. *)
Theorem unproducible_target_never_returns {I : Type}
    (language : StringLanguage) (inputs : I) (target : string) :
  ((∀ t, producible language t → interpret t ≠ target) →
   ∀ fuel,
     Forall (λ p, interpret p ≠ target) (frontier language inputs fuel)
     ∧ bottom_up_explicit fuel language inputs target = None)
  ∧ ((∃ c, c ∈ chars target ∧ c ∉ chars "abc") →
     (∀ t, producible StringLanguage_init t → interpret t ≠ target)
     ∧ ∀ fuel,
         Forall (λ p, interpret p ≠ target)
           (frontier StringLanguage_init inputs fuel)
         ∧ bottom_up_explicit fuel StringLanguage_init inputs target = None).
Proof.
  assert (Hgen : ∀ L : StringLanguage,
    (∀ t, producible L t → interpret t ≠ target) →
    ∀ fuel, Forall (λ p, interpret p ≠ target) (frontier L inputs fuel)
            ∧ bottom_up_explicit fuel L inputs target = None).
  { intros L Hno fuel. split; [by apply unproducible_no_match|].
    apply bottom_up_explicit_None. intros j _.
    apply scan_None. by apply unproducible_no_match. }
  split; [apply Hgen|].
  intros (c & Hc & Hout).
  assert (Hno : ∀ t, producible StringLanguage_init t → interpret t ≠ target)
    by (by apply (outside_alphabet_not_producible _ _ c)).
  split; [done | by apply Hgen].
Qed.

Lemma unproducible_target_never_returns_witness :
  bottom_up_explicit 5 StringLanguage_init "" "z" = None
  ∧ ∀ fuel, bottom_up_explicit fuel StringLanguage_init "" "az" = None.
Proof.
  assert (Hz : ∀ target, "z"%char ∈ chars target →
            ∃ c, c ∈ chars target ∧ c ∉ chars "abc").
  { intros target Hin. exists "z"%char. split; [done|].
    simpl. rewrite !elem_of_cons, elem_of_nil. intros [?|[?|[?|[]]]]; done. }
  split.
  - apply (proj2 (unproducible_target_never_returns StringLanguage_init "" "z")).
    apply Hz. simpl. left.
  - intros fuel.
    apply (proj2 (unproducible_target_never_returns StringLanguage_init "" "az")).
    apply Hz. simpl. right. left.
Defined.

(** ** The first pass *)

Lemma scan_terminals (l : list string) s :
  s ∈ l → scan s (map Terminal l) = Some (Terminal s).
Proof.
  induction l as [|x l IH]; [by intros ?%elem_of_nil|].
  intros Hs. simpl map. destruct (decide (x = s)) as [->|Hne].
  - by rewrite scan_hit.
  - rewrite scan_miss by done. apply IH.
    by apply elem_of_cons in Hs as [?|?].
Qed.

Lemma first_pass_single_symbol {I : Type} language (inputs : I) s :
  s ∈ iter_str (terminals language) →
  bottom_up_run 1 language inputs s = Some (Terminal s, 1).
Proof.
  intros Hs. unfold bottom_up_run. apply bottom_up_loop_found.
  unfold round, filter_observationally_equivalent.
  rewrite scan_filter_loop by set_solver.
  apply scan_app_Some. by apply scan_terminals.
Qed.

Lemma single_symbol_returned {I : Type} language (inputs : I) s extra :
  s ∈ iter_str (terminals language) →
  bottom_up_explicit (1 + extra) language inputs s = Some (Terminal s)
  ∧ generator_steps (1 + extra) language inputs s = Some 1.
Proof.
  intros Hs. split.
  - apply bottom_up_explicit_mono. unfold bottom_up_explicit.
    by rewrite first_pass_single_symbol.
  - apply generator_steps_mono. unfold generator_steps.
    by rewrite first_pass_single_symbol.
Qed.

(** C9, as amended: for a target that is a single symbol of the alphabet the
    driver returns the bare terminal of that symbol in its very first pass;
    that pass has made one generator step (and one collapse) before its scan
    finds the match, and nothing is returned before it. *)
Theorem single_symbol_target {I : Type} (language : StringLanguage)
    (inputs : I) (s : string) :
  s ∈ iter_str (terminals language) →
  bottom_up_explicit 0 language inputs s = None
  ∧ ∀ extra,
      bottom_up_explicit (1 + extra) language inputs s = Some (Terminal s)
      ∧ generator_steps (1 + extra) language inputs s = Some 1.
Proof.
  intros Hs. split; [done|]. intros extra. by apply single_symbol_returned.
Qed.

Lemma single_symbol_target_witness :
  bottom_up_explicit 1 StringLanguage_init "" "b" = Some (Terminal "b")
  ∧ generator_steps 1 StringLanguage_init "" "b" = Some 1.
Proof.
  apply (proj2 (single_symbol_target StringLanguage_init "" "b"
                  ltac:(simpl; set_solver)) 0).
Defined.

(** C9 as stated fails: target ["b"] is returned only after a generator
    step. *)
Lemma single_symbol_needs_generator_step :
  ¬ ∃ fuel,
      bottom_up_explicit fuel StringLanguage_init "" "b" = Some (Terminal "b")
      ∧ generator_steps fuel StringLanguage_init "" "b" = Some 0.
Proof.
  intros ([|fuel] & Hrun & Hsteps); [done|].
  assert (Hb : "b" ∈ iter_str (terminals StringLanguage_init))
    by (simpl; set_solver).
  destruct (single_symbol_returned StringLanguage_init "" "b" fuel Hb)
    as [_ Hone].
  simpl in Hone. congruence.
Qed.

(** ** Degenerate configurations *)

Section degenerate.
Context {I : Type}.
Variables (inputs : I).

Lemma round_nil language : round language inputs [] = [].
Proof. reflexivity. Qed.

Lemma frontier_empty_alphabet language k :
  terminals language = "" → frontier language inputs k = [].
Proof.
  intros Hempty. induction k as [|k IH].
  - unfold frontier, initial. simpl. by rewrite Hempty.
  - unfold frontier in *. simpl. by rewrite IH, round_nil.
Qed.

Lemma empty_alphabet_never_returns language target fuel :
  terminals language = "" →
  bottom_up_explicit fuel language inputs target = None.
Proof.
  intros Hempty. apply bottom_up_explicit_None. intros j _.
  by rewrite frontier_empty_alphabet.
Qed.

Lemma grow_empty_counts language P :
  nums language = [] →
  grow language P = concat (map (λ p, p :: group language p) P).
Proof.
  intros Hnums. rewrite grow_concat. f_equal. apply map_ext. intros p.
  unfold expansions, group. by rewrite Hnums.
Qed.
End degenerate.

(** C8, as amended: the driver checks nothing about the configuration and
    reports no error.  With an empty alphabet the frontier is empty in every
    pass and the loop never returns.  With an empty count set alone the
    generator still yields each program and its group expansions, and the
    search returns as usual, a single-symbol target in the first pass. *)
Theorem degenerate_configuration {I : Type} (language : StringLanguage)
    (inputs : I) :
  (terminals language = "" →
   ∀ target fuel,
     frontier language inputs fuel = []
     ∧ bottom_up_explicit fuel language inputs target = None)
  ∧ (nums language = [] →
     (∀ P, grow language P = concat (map (λ p, p :: group language p) P))
     ∧ Forall (λ s, bottom_up_explicit 1 language inputs s = Some (Terminal s))
         (iter_str (terminals language))).
Proof.
  split.
  - intros Hempty target fuel.
    split; [by apply frontier_empty_alphabet
           | by apply empty_alphabet_never_returns].
  - intros Hnums. split; [intros P; by apply grow_empty_counts|].
    apply Forall_forall. intros s Hs.
    by apply (single_symbol_returned language inputs s 0).
Qed.

Lemma degenerate_configuration_witness :
  (∀ fuel, bottom_up_explicit fuel (mkStringLanguage "" [2; 3; 4]%Z) "" "aaa"
           = None)
  ∧ Forall (λ s, bottom_up_explicit 1 (mkStringLanguage "abc" []) "" s
                 = Some (Terminal s)) ["a"; "b"; "c"].
Proof.
  split.
  - intros fuel.
    apply (proj1 (degenerate_configuration
                    (mkStringLanguage "" [2; 3; 4]%Z) "") eq_refl "aaa" fuel).
  - apply (proj2 (degenerate_configuration (mkStringLanguage "abc" []) "")
             eq_refl).
Defined.

(** C8 as stated fails: with an empty count set the driver returns a program,
    and with an empty alphabet it is still looping after any number of
    passes; neither run reports the configuration. *)
Lemma degenerate_configuration_not_reported :
  bottom_up_explicit 1 (mkStringLanguage "abc" []) "" "ab"
  = Some (Group "a" (Terminal "b"))
  ∧ ¬ ∃ fuel, bottom_up_explicit fuel (mkStringLanguage "" [2; 3; 4]%Z) "" "aaa"
              ≠ None.
Proof.
  split; [by vm_compute|].
  intros (fuel & Hstop). apply Hstop.
  by apply empty_alphabet_never_returns.
Qed.

(** ** The two scenarios of the demo *)

(** C1: with the alphabet ['abc'] and the counts [2, 3, 4] the driver
    returns for target ["aaa"] in its first pass a program rendered ["3(a)"],
    and for target ["ababab"] in its second pass a program rendered
    ["3(a(b))"]. *)
Theorem scenarios_aaa_ababab {I : Type} (inputs : I) (extra : nat) :
  bottom_up_explicit (1 + extra) StringLanguage_init inputs "aaa"
  = Some (Repeat 3 (Terminal "a"))
  ∧ render (Repeat 3 (Terminal "a")) = "3(a)"
  ∧ bottom_up_explicit 1 StringLanguage_init inputs "ababab" = None
  ∧ bottom_up_explicit (2 + extra) StringLanguage_init inputs "ababab"
    = Some (Repeat 3 (Group "a" (Terminal "b")))
  ∧ render (Repeat 3 (Group "a" (Terminal "b"))) = "3(a(b))".
Proof.
  split; [apply bottom_up_explicit_mono; by vm_compute|].
  split; [by vm_compute|].
  split; [by vm_compute|].
  split; [apply bottom_up_explicit_mono; by vm_compute | by vm_compute].
Qed.

(** ** The example inputs *)

Lemma bottom_up_loop_inputs {I1 I2 : Type} fuel language
    (inputs1 : I1) (inputs2 : I2) outputs programs grown :
  bottom_up_loop fuel language inputs1 outputs programs grown
  = bottom_up_loop fuel language inputs2 outputs programs grown.
Proof.
  revert programs grown.
  induction fuel as [|fuel IH]; intros programs grown; [done|].
  simpl. change (round language inputs1 programs)
    with (round language inputs2 programs).
  destruct (scan outputs (round language inputs2 programs)); [done|].
  apply IH.
Qed.

(** C10: neither entry point reads [inputs].  For any two values of it the
    filter returns the same sequence for the same programs, and the driver
    gives the same result after the same number of passes, so that it
    returns for the one exactly when it returns for the other. *)
Theorem inputs_ignored {I1 I2 : Type} (language : StringLanguage)
    (inputs1 : I1) (inputs2 : I2) (programs : list StringTree)
    (fuel : nat) (target : string) :
  filter_observationally_equivalent language programs inputs1
  = filter_observationally_equivalent language programs inputs2
  ∧ bottom_up_explicit fuel language inputs1 target
    = bottom_up_explicit fuel language inputs2 target
  ∧ generator_steps fuel language inputs1 target
    = generator_steps fuel language inputs2 target.
Proof.
  split; [done|].
  unfold bottom_up_explicit, generator_steps, bottom_up_run.
  by rewrite (bottom_up_loop_inputs fuel language inputs1 inputs2).
Qed.

(** * Further properties of the engine *)

(** ** The filter as a function on sequences *)

Section filter_sequences.
Implicit Types (seen : gset string) (programs P Q : list StringTree).

Lemma filter_loop_app seen P Q :
  filter_loop seen (P ++ Q)
  = filter_loop seen P
    ++ filter_loop (list_to_set (interpret <$> P) ∪ seen) Q.
Proof.
  revert seen. induction P as [|p P IH]; intros seen.
  - simpl. f_equal. set_solver.
  - rewrite <- app_comm_cons.
    destruct (decide (interpret p ∈ seen)) as [Hin|Hnin].
    + rewrite !filter_loop_drop by done. rewrite IH. do 2 f_equal.
      rewrite fmap_cons. set_solver.
    + rewrite !filter_loop_keep by done. rewrite IH, <- app_comm_cons.
      do 3 f_equal. rewrite fmap_cons. set_solver.
Qed.

Lemma filter_loop_id seen programs :
  NoDup (interpret <$> programs) →
  (∀ p, p ∈ programs → interpret p ∉ seen) →
  filter_loop seen programs = programs.
Proof.
  revert seen. induction programs as [|p rest IH]; intros seen Hnd Hseen.
  - done.
  - rewrite fmap_cons in Hnd. apply NoDup_cons in Hnd as [Hp Hnd].
    rewrite filter_loop_keep by (apply Hseen; left).
    f_equal. apply IH; [done|].
    intros q Hq [Heq%elem_of_singleton|Hin]%elem_of_union.
    + apply Hp, list_elem_of_fmap. by exists q.
    + apply (Hseen q); [by right | done].
Qed.

Lemma filter_loop_sublist seen programs :
  filter_loop seen programs `sublist_of` programs.
Proof.
  revert seen. induction programs as [|p rest IH]; intros seen; [done|].
  destruct (decide (interpret p ∈ seen)) as [Hin|Hnin].
  - rewrite filter_loop_drop by done. by apply sublist_cons.
  - rewrite filter_loop_keep by done. by apply sublist_skip.
Qed.

Lemma filter_loop_outputs seen programs o :
  o ∈ interpret <$> filter_loop seen programs
  ↔ o ∈ interpret <$> programs ∧ o ∉ seen.
Proof.
  revert seen. induction programs as [|p rest IH]; intros seen.
  - simpl. rewrite elem_of_nil. naive_solver.
  - destruct (decide (interpret p ∈ seen)) as [Hin|Hnin].
    + rewrite filter_loop_drop by done. rewrite IH, fmap_cons, elem_of_cons.
      naive_solver.
    + rewrite filter_loop_keep by done.
      rewrite !fmap_cons, !elem_of_cons, IH.
      destruct (decide (o = interpret p)) as [->|Hne]; [naive_solver|].
      set_solver.
Qed.
End filter_sequences.

(** X1: filtering a sequence that is already filtered changes nothing. *)
Theorem filter_idempotent {I : Type} (language : StringLanguage)
    (programs : list StringTree) (inputs : I) :
  filter_observationally_equivalent language
    (filter_observationally_equivalent language programs inputs) inputs
  = filter_observationally_equivalent language programs inputs.
Proof.
  unfold filter_observationally_equivalent.
  apply filter_loop_id; [apply filter_loop_NoDup | set_solver].
Qed.

(** X2: the filter returns its input unchanged exactly when the outputs of
    the input programs are pairwise different. *)
Theorem filter_fixed_point {I : Type} (language : StringLanguage)
    (programs : list StringTree) (inputs : I) :
  filter_observationally_equivalent language programs inputs = programs
  ↔ NoDup (interpret <$> programs).
Proof.
  unfold filter_observationally_equivalent. split.
  - intros <-. apply filter_loop_NoDup.
  - intros Hnd. apply filter_loop_id; [done | set_solver].
Qed.

Lemma filter_fixed_point_witness :
  filter_observationally_equivalent StringLanguage_init
    [Terminal "a"; Repeat 2 (Terminal "a"); Group "b" (Terminal "a")] ""
  = [Terminal "a"; Repeat 2 (Terminal "a"); Group "b" (Terminal "a")].
Proof.
  apply (proj2 (filter_fixed_point StringLanguage_init
    [Terminal "a"; Repeat 2 (Terminal "a"); Group "b" (Terminal "a")] "")).
  apply (NoDup_fmap_2_strong _); [|by apply NoDup_ListNoDup; repeat constructor;
    simpl; intuition congruence].
  intros x y Hx Hy.
  repeat (apply elem_of_cons in Hx as [->|Hx]); try by apply elem_of_nil in Hx.
  all: repeat (apply elem_of_cons in Hy as [->|Hy]);
    try by apply elem_of_nil in Hy.
  all: by vm_compute.
Defined.

(** X3: the filter only removes programs: what it returns is a subsequence
    of its input in the input's order, no longer than the input, and it loses
    no output: a string is the output of a returned program exactly when it
    is the output of an input program. *)
Theorem filter_subsequence_same_outputs {I : Type} (language : StringLanguage)
    (programs : list StringTree) (inputs : I) :
  let kept := filter_observationally_equivalent language programs inputs in
  kept `sublist_of` programs
  ∧ length kept ≤ length programs
  ∧ ∀ o, o ∈ interpret <$> kept ↔ o ∈ interpret <$> programs.
Proof.
  intros kept. split; [apply filter_loop_sublist|].
  split; [apply sublist_length, filter_loop_sublist|].
  intros o. unfold kept, filter_observationally_equivalent.
  rewrite filter_loop_outputs. set_solver.
Qed.

(** X4: the filter never removes the program the driver's scan returns: for
    every target the scan finds the same program before and after
    filtering. *)
Theorem scan_after_filter {I : Type} (language : StringLanguage)
    (programs : list StringTree) (inputs : I) (target : string) :
  scan target (filter_observationally_equivalent language programs inputs)
  = scan target programs.
Proof. apply scan_filter_loop. set_solver. Qed.

(** ** Invariants of the frontier *)

Section frontier_invariants.
Context {I : Type}.
Variables (language : StringLanguage) (inputs : I).
Implicit Types (P : list StringTree) (k : nat).

Lemma frontier_S k :
  frontier language inputs (S k)
  = round language inputs (frontier language inputs k).
Proof. reflexivity. Qed.

Lemma round_outputs_NoDup P : NoDup (interpret <$> round language inputs P).
Proof. apply filter_loop_NoDup. Qed.

Lemma round_outputs P o :
  o ∈ interpret <$> round language inputs P
  ↔ o ∈ interpret <$> (P ++ grow language P).
Proof.
  unfold round, filter_observationally_equivalent.
  rewrite filter_loop_outputs. set_solver.
Qed.

(** A collapsed frontier is kept as it is by the next pass, which only
    appends to it. *)
Lemma round_extends P :
  NoDup (interpret <$> P) →
  round language inputs P
  = P ++ filter_loop (list_to_set (interpret <$> P)) (grow language P).
Proof.
  intros Hnd. unfold round, filter_observationally_equivalent.
  rewrite filter_loop_app. f_equal.
  - apply filter_loop_id; [done | set_solver].
  - f_equal. set_solver.
Qed.

Lemma frontier_prefix_step k :
  frontier language inputs (S k) `prefix_of` frontier language inputs (S (S k)).
Proof.
  rewrite (frontier_S (S k)), round_extends by apply round_outputs_NoDup.
  by apply prefix_app_r.
Qed.

Lemma grow_height P k :
  Forall (λ p, height p ≤ k) P →
  Forall (λ p, height p ≤ S k) (grow language P).
Proof.
  induction 1 as [|p P Hp HP IH]; [constructor|].
  rewrite grow_cons. apply Forall_app. split; [|done].
  unfold expansions. constructor; [lia|].
  apply Forall_app. split; apply Forall_forall.
  - intros t (n & -> & _)%list_elem_of_fmap. simpl. lia.
  - intros t (s & -> & _)%list_elem_of_fmap. simpl. lia.
Qed.

Lemma frontier_height k :
  Forall (λ p, height p ≤ k) (frontier language inputs k).
Proof.
  induction k as [|k IH].
  - apply Forall_forall. by intros t (s & -> & _)%list_elem_of_fmap.
  - rewrite frontier_S. apply Forall_forall. intros t Ht%round_subseteq.
    revert t Ht. apply Forall_forall, Forall_app. split.
    + eapply Forall_impl; [exact IH|]. simpl. lia.
    + by apply grow_height.
Qed.
End frontier_invariants.

(** X5: after every pass the frontier holds no two programs with the same
    output (and so no program twice). *)
Theorem frontier_outputs_distinct {I : Type} (language : StringLanguage)
    (inputs : I) (k : nat) :
  NoDup (interpret <$> frontier language inputs (S k))
  ∧ NoDup (frontier language inputs (S k)).
Proof.
  assert (Hnd : NoDup (interpret <$> frontier language inputs (S k)))
    by apply round_outputs_NoDup.
  split; [done | by apply NoDup_fmap_1 in Hnd].
Qed.

(** X6: a pass only appends to the collapsed frontier: the frontier of a pass
    is a prefix of the frontier of every later pass, so a program keeps its
    place in the scan order once it is in. *)
Theorem frontier_grows_by_appending {I : Type} (language : StringLanguage)
    (inputs : I) (k m : nat) :
  frontier language inputs (S k) `prefix_of` frontier language inputs (S k + m).
Proof.
  induction m as [|m IH].
  - by rewrite Nat.add_0_r.
  - etrans; [exact IH|]. rewrite Nat.add_succ_r.
    apply (frontier_prefix_step language inputs (k + m)).
Qed.

(** X7: the programs of the frontier of pass [k] are nested at most [k]
    deep, and all are programs over the symbols and counts of the
    language. *)
Theorem frontier_height_producible {I : Type} (language : StringLanguage)
    (inputs : I) (k : nat) :
  Forall (λ p, height p ≤ k ∧ producible language p)
    (frontier language inputs k).
Proof.
  apply Forall_and. split; [apply frontier_height | apply frontier_producible].
Qed.

(** ** Completeness of the search *)

Section completeness.
Context {I : Type}.
Variables (language : StringLanguage) (inputs : I).
Implicit Types (P : list StringTree) (t p q : StringTree) (k : nat).

Lemma grow_In_expansions P q t :
  q ∈ P → t ∈ expansions language q → t ∈ grow language P.
Proof.
  induction P as [|p P IH]; [by intros ?%elem_of_nil|].
  rewrite grow_cons, elem_of_app.
  intros [->|Hq]%elem_of_cons Ht; [by left | right; by apply IH].
Qed.

Lemma grow_In_Repeat P q n :
  q ∈ P → n ∈ nums language → Repeat n q ∈ grow language P.
Proof.
  intros Hq Hn. apply (grow_In_expansions P q); [done|].
  unfold expansions. right. apply elem_of_app. left.
  apply list_elem_of_fmap. by exists n.
Qed.

Lemma grow_In_Group P q s :
  q ∈ P → s ∈ iter_str (terminals language) → Group s q ∈ grow language P.
Proof.
  intros Hq Hs. apply (grow_In_expansions P q); [done|].
  unfold expansions. right. apply elem_of_app. right.
  apply list_elem_of_fmap. by exists s.
Qed.

Lemma frontier_outputs_S k o :
  o ∈ interpret <$> frontier language inputs k →
  o ∈ interpret <$> frontier language inputs (S k).
Proof.
  intros Ho. rewrite frontier_S, round_outputs, fmap_app, elem_of_app.
  by left.
Qed.

Lemma frontier_outputs_grown k t :
  t ∈ grow language (frontier language inputs k) →
  interpret t ∈ interpret <$> frontier language inputs (S k).
Proof.
  intros Ht. rewrite frontier_S, round_outputs, fmap_app, elem_of_app.
  right. apply list_elem_of_fmap. by exists t.
Qed.

(** The frontier of pass [k] has a program for the output of every program
    nested at most [k] deep. *)
Lemma frontier_covers t :
  producible language t →
  ∀ k, height t ≤ k → interpret t ∈ interpret <$> frontier language inputs k.
Proof.
  induction 1 as [s Hs|n c Hn Hc IH|s c Hs Hc IH]; intros k Hk.
  - induction k as [|k IHk].
    + apply list_elem_of_fmap. exists (Terminal s). split; [done|].
      apply list_elem_of_fmap. by exists s.
    + apply frontier_outputs_S, IHk. simpl. lia.
  - destruct k as [|k]; [simpl in Hk; lia|].
    assert (Hcov := IH k ltac:(simpl in Hk; lia)).
    apply list_elem_of_fmap in Hcov as (q & Hq & Hin).
    simpl. rewrite Hq.
    apply (frontier_outputs_grown k (Repeat n q)). by apply grow_In_Repeat.
  - destruct k as [|k]; [simpl in Hk; lia|].
    assert (Hcov := IH k ltac:(simpl in Hk; lia)).
    apply list_elem_of_fmap in Hcov as (q & Hq & Hin).
    simpl. rewrite Hq.
    apply (frontier_outputs_grown k (Group s q)). by apply grow_In_Group.
Qed.

Lemma bottom_up_loop_None_inv fuel outputs P grown :
  bottom_up_loop fuel language inputs outputs P grown = None →
  ∀ j, j < fuel →
    scan outputs (Nat.iter (S j) (round language inputs) P) = None.
Proof.
  revert P grown. induction fuel as [|fuel IH]; intros P grown Hrun j Hj;
    [lia|].
  destruct (scan outputs (round language inputs P)) as [p|] eqn:Hscan.
  - rewrite (bottom_up_loop_found _ _ _ _ _ _ p) in Hrun; done.
  - rewrite bottom_up_loop_again in Hrun by done.
    destruct j as [|j]; [done|].
    rewrite Nat.iter_succ_r. apply (IH _ _ Hrun). lia.
Qed.

Lemma bottom_up_explicit_None_inv fuel outputs :
  bottom_up_explicit fuel language inputs outputs = None →
  ∀ j, j < fuel → scan outputs (frontier language inputs (S j)) = None.
Proof.
  unfold bottom_up_explicit, bottom_up_run, frontier.
  destruct (bottom_up_loop fuel _ _ _ _ _) as [r|] eqn:Hrun; [done|].
  intros _. by apply (bottom_up_loop_None_inv fuel outputs _ 0).
Qed.

Lemma bottom_up_explicit_output fuel outputs p :
  bottom_up_explicit fuel language inputs outputs = Some p →
  interpret p = outputs.
Proof.
  intros (k & _ & _ & Hhit & _)%bottom_up_explicit_Some.
  by apply scan_Some in Hhit as (_ & _ & _ & Hp & _).
Qed.

Lemma covered_target_returned fuel outputs :
  0 < fuel →
  outputs ∈ interpret <$> frontier language inputs fuel →
  ∃ p, bottom_up_explicit fuel language inputs outputs = Some p.
Proof.
  intros Hfuel (q & Hq & Hin)%list_elem_of_fmap.
  destruct (bottom_up_explicit fuel language inputs outputs) as [p|] eqn:Hrun;
    [by exists p|].
  destruct fuel as [|k]; [lia|].
  pose proof (bottom_up_explicit_None_inv _ _ Hrun k (Nat.lt_succ_diag_r k))
    as Hmiss.
  apply scan_None in Hmiss. rewrite Forall_forall in Hmiss.
  by destruct (Hmiss q Hin).
Qed.

Lemma producible_target_returned t :
  producible language t →
  ∃ p, bottom_up_explicit (Nat.max 1 (height t)) language inputs (interpret t)
       = Some p.
Proof.
  intros Ht. apply covered_target_returned; [lia|].
  apply frontier_covers; [done | lia].
Qed.

Lemma returned_in_frontier fuel outputs p :
  bottom_up_explicit fuel language inputs outputs = Some p →
  ∃ k, k < fuel ∧ p ∈ frontier language inputs (S k)
       ∧ ∀ j, j < k → scan outputs (frontier language inputs (S j)) = None.
Proof.
  intros (k & Hk & _ & Hhit & Hmiss)%bottom_up_explicit_Some.
  exists k. split; [done|]. split; [|done].
  apply scan_Some in Hhit as (pre & post & -> & _).
  apply elem_of_app. right. left.
Qed.
End completeness.

(** X8: the search is complete.  For every program over the symbols and
    counts of the language the driver, run on that program's output as the
    target, returns within as many passes as the program is deep (one pass
    for a bare terminal), and what it returns has the target as output. *)
Theorem producible_target_found {I : Type} (language : StringLanguage)
    (inputs : I) (t : StringTree) :
  producible language t →
  ∃ p, bottom_up_explicit (Nat.max 1 (height t)) language inputs (interpret t)
       = Some p
       ∧ interpret p = interpret t.
Proof.
  intros [p Hp]%(producible_target_returned language inputs).
  exists p. split; [done|]. by apply bottom_up_explicit_output in Hp.
Qed.

Lemma producible_target_found_witness :
  ∃ p, bottom_up_explicit 2 StringLanguage_init ""
         (interpret (Group "c" (Repeat 4 (Terminal "b")))) = Some p
       ∧ interpret p = "cbbbb".
Proof.
  apply (producible_target_found StringLanguage_init ""
           (Group "c" (Repeat 4 (Terminal "b")))).
  repeat constructor; simpl; set_solver.
Defined.

(** X9: the program the driver returns is as shallow as can be: no program
    over the symbols and counts of the language with the target as output is
    nested less deep than the returned one. *)
Theorem returned_program_minimal_height {I : Type} (language : StringLanguage)
    (inputs : I) (fuel : nat) (t p : StringTree) :
  producible language t →
  bottom_up_explicit fuel language inputs (interpret t) = Some p →
  height p ≤ height t.
Proof.
  intros Ht Hrun.
  destruct (returned_in_frontier _ _ _ _ _ Hrun) as (k & Hk & Hp & Hmiss).
  destruct (height t) as [|h] eqn:Hh.
  - destruct Ht as [s Hs| |]; try discriminate.
    destruct (single_symbol_returned language inputs s (fuel - 1) Hs)
      as [Hone _].
    replace (1 + (fuel - 1)) with fuel in Hone by lia.
    simpl in Hrun. rewrite Hrun in Hone. by injection Hone as ->.
  - assert (k ≤ h) as Hle.
    { destruct (decide (k ≤ h)) as [|Hgt]; [done|].
      assert (Hmiss' := Hmiss h ltac:(lia)).
      apply scan_None in Hmiss'. rewrite Forall_forall in Hmiss'.
      assert (Hcov := frontier_covers language inputs t Ht (S h) ltac:(lia)).
      apply list_elem_of_fmap in Hcov as (q & Hq & Hin).
      by destruct (Hmiss' q Hin). }
    pose proof (frontier_height language inputs (S k)) as Hheight.
    rewrite Forall_forall in Hheight. specialize (Hheight p Hp). simpl in *.
    lia.
Qed.

Lemma returned_program_minimal_height_witness :
  height (Repeat 3 (Terminal "a")) ≤ height (Group "a" (Group "a" (Terminal "a"))).
Proof.
  apply (returned_program_minimal_height StringLanguage_init "" 1).
  - repeat constructor; simpl; set_solver.
  - by vm_compute.
Defined.

(** ** What the driver returns *)

Lemma producible_well_formed language t :
  (∀ n, n ∈ nums language → (2 ≤ n)%Z) →
  producible language t → well_formed t.
Proof.
  intros Hnums. induction 1 as [s Hs|n c Hn Hc IH|s c Hs Hc IH]; simpl.
  - by apply (iter_str_one_char (terminals language)).
  - split; [by apply Hnums | done].
  - split; [by apply (iter_str_one_char (terminals language)) | done].
Qed.

(** X10: the driver never returns a program outside the grammar: a returned
    program is built from symbols of the alphabet and counts of the count
    list, is nested at most as deep as passes were run, and is well formed
    when every count is at least 2. *)
Theorem returned_program_in_grammar {I : Type} (language : StringLanguage)
    (inputs : I) (fuel : nat) (target : string) (p : StringTree) :
  bottom_up_explicit fuel language inputs target = Some p →
  producible language p
  ∧ height p ≤ fuel
  ∧ ((∀ n, n ∈ nums language → (2 ≤ n)%Z) → well_formed p).
Proof.
  intros (k & Hk & Hp & _)%returned_in_frontier.
  pose proof (frontier_producible language inputs (S k)) as Hprod.
  pose proof (frontier_height language inputs (S k)) as Hheight.
  rewrite Forall_forall in Hprod, Hheight.
  specialize (Hprod p Hp). specialize (Hheight p Hp). simpl in Hheight.
  split; [done|]. split; [lia|].
  intros Hnums. by apply (producible_well_formed language).
Qed.

Lemma returned_program_in_grammar_witness :
  producible StringLanguage_init (Repeat 3 (Group "a" (Terminal "b")))
  ∧ well_formed (Repeat 3 (Group "a" (Terminal "b"))).
Proof.
  destruct (returned_program_in_grammar StringLanguage_init "" 2 "ababab"
              (Repeat 3 (Group "a" (Terminal "b"))) ltac:(by vm_compute))
    as (Hprod & _ & Hwf).
  split; [exact Hprod|]. apply Hwf.
  intros n Hn. simpl in Hn.
  repeat (apply elem_of_cons in Hn as [->|Hn]; [lia|]).
  by apply elem_of_nil in Hn.
Defined.

(** ** When the search returns *)

Section termination.
Context {I : Type}.
Variables (language : StringLanguage) (inputs : I).

Lemma iter_str_chars s c : c ∈ chars s → String c "" ∈ iter_str s.
Proof.
  induction s as [|a s IH]; simpl; [by intros ?%elem_of_nil|].
  intros [->|Hc]%elem_of_cons; [left | right; by apply IH].
Qed.

Lemma spell_interpret c s : interpret (spell c s) = String c s.
Proof.
  revert c. induction s as [|c' s IH]; intros c; simpl; [done|].
  by rewrite IH.
Qed.

Lemma spell_height c s : height (spell c s) = String.length s.
Proof.
  revert c. induction s as [|c' s IH]; intros c; simpl; [done|].
  by rewrite IH.
Qed.

Lemma spell_producible c s :
  (∀ x, x ∈ chars (String c s) → x ∈ chars (terminals language)) →
  producible language (spell c s).
Proof.
  revert c. induction s as [|c' s IH]; intros c Hin; simpl.
  - constructor. apply iter_str_chars, Hin. left.
  - constructor.
    + apply iter_str_chars, Hin. left.
    + apply IH. intros x Hx. apply Hin. by right.
Qed.

Lemma producible_output_nonempty t :
  (∀ n, n ∈ nums language → (0 < n)%Z) →
  producible language t → 1 ≤ String.length (interpret t).
Proof.
  intros Hnums. induction 1 as [s Hs|n c Hn Hc IH|s c Hs Hc IH]; simpl.
  - by rewrite (iter_str_one_char (terminals language) s).
  - unfold int_mul_str. rewrite str_times_length.
    specialize (Hnums n Hn). nia.
  - rewrite string_length_app. lia.
Qed.
End termination.

(** X11: when every count is positive, the driver returns for a target
    exactly when the target is a non-empty string over the alphabet, and it
    then returns within as many passes as the target has characters. *)
Theorem search_returns_iff {I : Type} (language : StringLanguage)
    (inputs : I) (target : string) :
  (∀ n, n ∈ nums language → (0 < n)%Z) →
  ((∃ fuel p, bottom_up_explicit fuel language inputs target = Some p)
   ↔ target ≠ "" ∧ ∀ c, c ∈ chars target → c ∈ chars (terminals language))
  ∧ ((∃ fuel p, bottom_up_explicit fuel language inputs target = Some p)
     ↔ ∃ p, bottom_up_explicit (String.length target) language inputs target
            = Some p).
Proof.
  intros Hnums.
  assert (Hout : (∃ fuel p, bottom_up_explicit fuel language inputs target
                            = Some p) →
                 target ≠ ""
                 ∧ ∀ c, c ∈ chars target → c ∈ chars (terminals language)).
  { intros (fuel & p & Hrun).
    pose proof (bottom_up_explicit_output _ _ _ _ _ Hrun) as Hp.
    apply returned_in_frontier in Hrun as (k & _ & Hin & _).
    pose proof (frontier_producible language inputs (S k)) as Hprod.
    rewrite Forall_forall in Hprod. specialize (Hprod p Hin). split.
    - intros ->.
      pose proof (producible_output_nonempty language p Hnums Hprod) as Hlen.
      rewrite Hp in Hlen. simpl in Hlen. lia.
    - intros c Hc. apply (interpret_chars language p); [done|].
      by rewrite Hp. }
  assert (Hin : target ≠ ""
                ∧ (∀ c, c ∈ chars target → c ∈ chars (terminals language)) →
                ∃ p, bottom_up_explicit (String.length target) language inputs
                       target = Some p).
  { intros [Hne Hchars]. destruct target as [|c s]; [done|].
    pose proof (spell_producible language c s Hchars) as Hprod.
    destruct (producible_target_returned language inputs _ Hprod) as [p Hp].
    rewrite spell_interpret, spell_height in Hp.
    exists p. simpl String.length.
    replace (S (String.length s))
      with (Nat.max 1 (String.length s)
            + (S (String.length s) - Nat.max 1 (String.length s))) by lia.
    by apply bottom_up_explicit_mono. }
  split; split; [done| |by auto|by eauto].
  intros Hok. destruct (Hin Hok) as [p Hp]. by eauto.
Qed.

Lemma search_returns_iff_witness :
  (∃ p, bottom_up_explicit 4 StringLanguage_init "" "cabc" = Some p)
  ∧ ¬ ∃ fuel p, bottom_up_explicit fuel StringLanguage_init "" "" = Some p.
Proof.
  assert (Hnums : ∀ n, n ∈ nums StringLanguage_init → (0 < n)%Z).
  { intros n Hn. simpl in Hn.
    repeat (apply elem_of_cons in Hn as [->|Hn]; [lia|]).
    by apply elem_of_nil in Hn. }
  split.
  - apply (proj2 (search_returns_iff StringLanguage_init "" "cabc" Hnums)).
    apply (proj1 (search_returns_iff StringLanguage_init "" "cabc" Hnums)).
    split; [done|]. intros c Hc. simpl in *. set_solver.
  - intros Hret.
    apply (proj1 (search_returns_iff StringLanguage_init "" "" Hnums)) in Hret.
    by destruct Hret.
Defined.

(** ** Output length and nesting depth *)

(** X12: the output of a well-formed program is never empty and is longer
    than the program is deep. *)
Theorem output_longer_than_height (t : StringTree) :
  well_formed t → height t < String.length (interpret t).
Proof.
  induction t as [s|n c IH|s c IH]; simpl.
  - intros ->. lia.
  - intros [Hn Hc%IH]. unfold int_mul_str. rewrite str_times_length. nia.
  - intros [Hs Hc%IH]. rewrite string_length_app. lia.
Qed.

Lemma output_longer_than_height_witness :
  height (Repeat 2 (Group "a" (Terminal "b")))
  < String.length (interpret (Repeat 2 (Group "a" (Terminal "b")))).
Proof.
  apply output_longer_than_height. simpl. repeat split; lia.
Defined.

(** ** Size of the frontier *)

Lemma round_length {I : Type} language (inputs : I) P :
  length (round language inputs P)
  ≤ length P * (2 + length (nums language) + String.length (terminals language)).
Proof.
  unfold round, filter_observationally_equivalent.
  etrans; [apply sublist_length, filter_loop_sublist|].
  rewrite length_app, grow_length. lia.
Qed.

(** X13: a pass multiplies the size of the frontier by at most two plus the
    number of counts plus the number of symbols, so the frontier of pass [k]
    has at most (number of symbols) times that factor to the power [k]
    programs. *)
Theorem frontier_size_bound {I : Type} (language : StringLanguage)
    (inputs : I) (k : nat) :
  length (frontier language inputs k)
  ≤ String.length (terminals language)
    * (2 + length (nums language) + String.length (terminals language)) ^ k.
Proof.
  induction k as [|k IH].
  - unfold frontier, initial. simpl. rewrite length_map, iter_str_length. lia.
  - rewrite frontier_S. etrans; [apply round_length|].
    rewrite Nat.pow_succ_r'. nia.
Qed.

(** ** Reading a rendering back *)

Lemma string_app_nil_l (s : string) : "" +:+ s = s.
Proof. reflexivity. Qed.

Lemma chars_inj s t : chars s = chars t → s = t.
Proof.
  revert t. induction s as [|c s IH]; intros [|d t]; simpl; try done.
  intros [= -> Heq]. f_equal. by apply IH.
Qed.

Lemma string_app_inv_tail s t u : s +:+ u = t +:+ u → s = t.
Proof.
  intros Heq. apply chars_inj. apply (f_equal chars) in Heq.
  rewrite !chars_app in Heq. by apply app_inv_tail in Heq.
Qed.

(** X14: with the alphabet ['abc'] and the counts [2, 3, 4] the rendering
    determines the program: two programs over these symbols and counts that
    render to the same text are the same program. *)
Theorem render_injective (t1 t2 : StringTree) :
  producible StringLanguage_init t1 → producible StringLanguage_init t2 →
  render t1 = render t2 → t1 = t2.
Proof.
  intros H1. revert t2.
  induction H1 as [s Hs|n c Hn Hc IH|s c Hs Hc IH];
    intros t2 [s' Hs'|n' c' Hn' Hc'|s' c' Hs' Hc'] Heq; simpl in *.
  all: repeat match goal with
       | H : _ ∈ _ :: _ |- _ => apply elem_of_cons in H as [->|H]
       | H : _ ∈ [] |- _ => by apply elem_of_nil in H
       end.
  all: try change (format_int 2) with "2" in Heq;
       try change (format_int 3) with "3" in Heq;
       try change (format_int 4) with "4" in Heq.
  all: rewrite ?string_app_cons, ?string_app_nil_l in Heq.
  all: try discriminate.
  all: try (injection Heq as Heq; apply string_app_inv_tail in Heq;
            f_equal; by apply IH).
  all: done.
Qed.

Lemma render_injective_witness :
  Repeat 3 (Group "a" (Terminal "b")) = Repeat 3 (Group "a" (Terminal "b")).
Proof.
  apply render_injective; [| |reflexivity];
    repeat constructor; simpl; set_solver.
Defined.

(** * The table of string transforms *)

(** ** Slices *)

Section slices.
Implicit Types (s : string) (n : nat).

Lemma str_take_drop n s : str_take n s +:+ str_drop n s = s.
Proof.
  revert s. induction n as [|n IH]; intros [|c s]; simpl; try done.
  by rewrite string_app_cons, IH.
Qed.

Lemma str_take_length n s :
  String.length (str_take n s) = Nat.min n (String.length s).
Proof.
  revert s. induction n as [|n IH]; intros [|c s]; simpl; try done.
  by rewrite IH.
Qed.

Lemma str_drop_length n s :
  String.length (str_drop n s) = String.length s - n.
Proof.
  revert s. induction n as [|n IH]; intros [|c s]; simpl; try done.
Qed.

Lemma slice_bound_of_nat len n : slice_bound len (Z.of_nat n) = Nat.min n len.
Proof.
  unfold slice_bound. destruct (Z.ltb_spec (Z.of_nat n) 0); lia.
Qed.

Lemma py_slice_length start stop s :
  String.length (py_slice start stop s)
  = Nat.min
      (match stop with
       | Some i => slice_bound (String.length s) i
       | None => String.length s
       end
       - match start with
         | Some i => slice_bound (String.length s) i
         | None => 0
         end)
      (String.length s
       - match start with
         | Some i => slice_bound (String.length s) i
         | None => 0
         end).
Proof. unfold py_slice. by rewrite str_take_length, str_drop_length. Qed.

Lemma py_slice_split start stop s :
  ∃ a b, s = a +:+ py_slice start stop s +:+ b
         ∧ String.length a
           = Nat.min (match start with
                      | Some i => slice_bound (String.length s) i
                      | None => 0
                      end) (String.length s).
Proof.
  unfold py_slice.
  set (lo := match start with Some i => _ | None => 0 end).
  set (hi := match stop with Some i => _ | None => _ end).
  exists (str_take lo s), (str_drop (hi - lo) (str_drop lo s)).
  by rewrite str_take_drop, str_take_drop, str_take_length.
Qed.
End slices.

(** X15: [remove_first_two_chars] cuts two characters off each end: a string
    of at least four characters is its result with two characters before and
    two after, and a shorter string gives the empty string. *)
Theorem remove_first_two_chars_both_ends (s : string) :
  String.length (remove_first_two_chars s) = String.length s - 4
  ∧ (String.length s ≤ 4 → remove_first_two_chars s = "")
  ∧ (4 ≤ String.length s →
     ∃ a b, s = a +:+ remove_first_two_chars s +:+ b
            ∧ String.length a = 2 ∧ String.length b = 2).
Proof.
  assert (Hlen : String.length (remove_first_two_chars s) = String.length s - 4).
  { unfold remove_first_two_chars. rewrite py_slice_length.
    unfold slice_bound. simpl. lia. }
  split; [done|]. split.
  - intros Hshort.
    destruct (remove_first_two_chars s) as [|c r]; [done|]. simpl in Hlen. lia.
  - intros Hlong.
    destruct (py_slice_split (Some 2%Z) (Some (-2)%Z) s) as (a & b & Hs & Ha).
    exists a, b. split; [done|].
    unfold slice_bound in Ha. simpl in Ha. split; [lia|].
    apply (f_equal String.length) in Hs.
    rewrite !string_length_app in Hs.
    fold (remove_first_two_chars s) in Hs. lia.
Qed.

Lemma remove_first_two_chars_both_ends_witness :
  remove_first_two_chars "abc" = ""
  ∧ ∃ a b, "abcdefg" = a +:+ remove_first_two_chars "abcdefg" +:+ b
           ∧ String.length a = 2 ∧ String.length b = 2.
Proof.
  split.
  - apply (remove_first_two_chars_both_ends "abc"). simpl. lia.
  - apply (remove_first_two_chars_both_ends "abcdefg"). simpl. lia.
Defined.

(** X16: [drop_last_half] keeps the first half of the string rounded down:
    the string is the result followed by a rest that is as long as the result
    for an even length and one longer for an odd length. *)
Theorem drop_last_half_prefix (s : string) :
  ∃ rest, s = drop_last_half s +:+ rest
          ∧ String.length (drop_last_half s) = String.length s / 2
          ∧ String.length rest
            = String.length (drop_last_half s) + String.length s mod 2.
Proof.
  assert (Hhalf : String.length s / 2 ≤ String.length s)
    by (apply Nat.Div0.div_le_upper_bound; lia).
  assert (Hlen : String.length (drop_last_half s) = String.length s / 2).
  { unfold drop_last_half. rewrite py_slice_length, slice_bound_of_nat. lia. }
  destruct (py_slice_split None (Some (Z.of_nat (String.length s / 2))) s)
    as (a & rest & Hs & Ha).
  fold (drop_last_half s) in Hs.
  destruct a as [|c a]; [|simpl in Ha; lia].
  rewrite string_app_nil_l in Hs. clear Ha.
  exists rest. split; [done|]. split; [done|].
  apply (f_equal String.length) in Hs. rewrite string_length_app in Hs.
  pose proof (Nat.div_mod_eq (String.length s) 2). lia.
Qed.

(** ** Removal by position *)

Section by_position.
Implicit Types (s : string) (i j : nat).

Lemma string_ind3 (P : string → Prop) :
  P "" → (∀ a, P (String a "")) → (∀ a b, P (String a (String b ""))) →
  (∀ a b c s, P s → P (String a (String b (String c s)))) →
  ∀ s, P s.
Proof.
  intros H0 H1 H2 H3 s.
  assert (P s ∧ (∀ a, P (String a s)) ∧ (∀ a b, P (String a (String b s))))
    as [Hs _]; [|done].
  induction s as [|c s (IH0 & IH1 & IH2)]; [done|].
  split; [apply IH1|]. split; [intros a; apply IH2|]. intros a b. by apply H3.
Qed.

Lemma join_enumerate_if_period keep i s :
  (∀ j, keep (j + 3) = keep j) →
  join_enumerate_if keep (i + 3) s = join_enumerate_if keep i s.
Proof.
  intros Hkeep. revert i. induction s as [|c s IH]; intros i; simpl; [done|].
  rewrite Hkeep. change (S (i + 3)) with (S i + 3). by rewrite IH.
Qed.

Lemma remove_every_third_triple a b c s :
  remove_every_third (String a (String b (String c s)))
  = String b (String c (remove_every_third s)).
Proof.
  unfold remove_every_third. set (keep := λ i, negb (i mod 3 =? 0)).
  change (join_enumerate_if keep 0 (String a (String b (String c s))))
    with (String b (String c (join_enumerate_if keep 3 s))).
  do 2 f_equal. apply (join_enumerate_if_period keep 0). intros j.
  unfold keep. change (j + 3) with (j + 1 * 3). by rewrite Nat.Div0.mod_add.
Qed.
End by_position.

(** X17: [remove_every_third] removes the characters at the positions 0, 3,
    6, ... (the first of every three): the character at position [j] of the
    result is the one at position [j + j // 2 + 1] of the input, and of [n]
    characters [n - (n + 2) // 3] are left. *)
Theorem remove_every_third_positions (s : string) :
  (∀ j, String.get j (remove_every_third s) = String.get (j + j / 2 + 1) s)
  ∧ String.length (remove_every_third s)
    = String.length s - (String.length s + 2) / 3.
Proof.
  induction s as [|a|a b|a b c s [IHget IHlen]] using string_ind3.
  - split; [by intros [|j] | done].
  - split; [|done]. intros j. rewrite Nat.add_1_r. by destruct j.
  - split; [|done]. intros [|j]; [done|].
    replace (S j + S j / 2 + 1) with (S (S (j + S j / 2))) by lia.
    by destruct j.
  - rewrite remove_every_third_triple. split.
    + intros [|[|j]]; [done|done|].
      change (String.get (S (S j)) (String b (String c (remove_every_third s))))
        with (String.get j (remove_every_third s)).
      rewrite IHget.
      assert (Hdiv : S (S j) / 2 = S (j / 2)).
      { replace (S (S j)) with (j + 1 * 2) by lia.
        rewrite Nat.div_add by done. lia. }
      rewrite Hdiv.
      by replace (S (S j) + S (j / 2) + 1) with (S (S (S (j + j / 2 + 1))))
        by lia.
    + simpl String.length. rewrite IHlen.
      replace (S (S (S (String.length s))) + 2)
        with (String.length s + 2 + 1 * 3) by lia.
      rewrite Nat.div_add by done.
      pose proof (Nat.div_mod_eq (String.length s + 2) 3).
      pose proof (Nat.mod_upper_bound (String.length s + 2) 3). lia.
Qed.

(** ** Removal and replacement of characters *)

Section by_character.
Implicit Types (s t : string) (keep : ascii → bool) (c : ascii).

Lemma join_if_chars keep s :
  chars (join_if keep s) = List.filter keep (chars s).
Proof.
  induction s as [|c s IH]; simpl; [done|].
  destruct (keep c); simpl; by rewrite IH.
Qed.

Lemma join_if_idempotent keep s : join_if keep (join_if keep s) = join_if keep s.
Proof.
  induction s as [|c s IH]; simpl; [done|].
  destruct (keep c) eqn:Hc; simpl; [|done]. by rewrite Hc, IH.
Qed.

Lemma join_if_comm keep1 keep2 s :
  join_if keep1 (join_if keep2 s) = join_if keep2 (join_if keep1 s).
Proof.
  induction s as [|c s IH]; simpl; [done|].
  destruct (keep1 c) eqn:H1, (keep2 c) eqn:H2; simpl;
    rewrite ?H1, ?H2, ?IH; done.
Qed.

Lemma join_if_kept keep s c : c ∈ chars (join_if keep s) → keep c = true.
Proof.
  rewrite join_if_chars, list_elem_of_In, List.filter_In. naive_solver.
Qed.

Lemma join_if_app keep s t :
  join_if keep (s +:+ t) = join_if keep s +:+ join_if keep t.
Proof.
  induction s as [|c s IH]; [done|].
  rewrite string_app_cons. simpl. destruct (keep c); [|done].
  by rewrite string_app_cons, IH.
Qed.

Lemma char_in_spec c lit : char_in c lit = true ↔ c ∈ chars lit.
Proof.
  induction lit as [|d lit IH]; simpl.
  - rewrite elem_of_nil. naive_solver.
  - rewrite elem_of_cons, orb_true_iff, Ascii.eqb_eq, IH. done.
Qed.

Lemma replace_char_length old new s :
  String.length (replace_char old new s) + count_char old s
  = String.length s + count_char old s * String.length new.
Proof.
  induction s as [|c s IH]; simpl; [done|].
  rewrite string_length_app. destruct (Ascii.eqb c old); simpl; lia.
Qed.

Lemma replace_char_count old new s c :
  count_char c (replace_char old new s) + (if Ascii.eqb old c then count_char old s else 0)
  = count_char c s + count_char old s * count_char c new.
Proof.
  assert (Happ : ∀ u v, count_char c (u +:+ v) = count_char c u + count_char c v).
  { intros u v. induction u as [|d u IHu]; [done|].
    rewrite string_app_cons. simpl. rewrite IHu. lia. }
  induction s as [|d s IH]; simpl; [by destruct (Ascii.eqb old c)|].
  rewrite Happ. destruct (Ascii.eqb d old) eqn:Hd.
  - apply Ascii.eqb_eq in Hd as ->. simpl.
    destruct (Ascii.eqb old c); simpl in *; lia.
  - simpl. destruct (Ascii.eqb d c) eqn:Hdc; [|lia].
    apply Ascii.eqb_eq in Hdc as ->.
    rewrite Ascii.eqb_sym, Hd in IH |- *. lia.
Qed.

Lemma replace_char_absent old new s :
  count_char old s = 0 → replace_char old new s = s.
Proof.
  induction s as [|c s IH]; simpl; [done|].
  destruct (Ascii.eqb c old); simpl; [lia|]. intros Hs.
  by rewrite string_app_cons, string_app_nil_l, IH.
Qed.
End by_character.

(** X18: [remove_vowels] and [delete_punctuation] leave none of the
    characters they remove, work on a concatenation part by part, change
    nothing when applied a second time, and can be applied in either
    order. *)
Theorem remove_vowels_delete_punctuation (s t : string) :
  Forall (λ c, c ∉ chars "aeiouAEIOU") (chars (remove_vowels s))
  ∧ Forall (λ c, c ∉ chars ".!?") (chars (delete_punctuation s))
  ∧ remove_vowels (s +:+ t) = remove_vowels s +:+ remove_vowels t
  ∧ delete_punctuation (s +:+ t) = delete_punctuation s +:+ delete_punctuation t
  ∧ remove_vowels (remove_vowels s) = remove_vowels s
  ∧ delete_punctuation (delete_punctuation s) = delete_punctuation s
  ∧ remove_vowels (delete_punctuation s) = delete_punctuation (remove_vowels s).
Proof.
  assert (Hnone : ∀ lit u,
    Forall (λ c, c ∉ chars lit)
      (chars (join_if (λ c, negb (char_in c lit)) u))).
  { intros lit u. apply Forall_forall. intros c Hc%join_if_kept Hin.
    apply char_in_spec in Hin. by rewrite Hin in Hc. }
  split; [apply Hnone|]. split; [apply Hnone|].
  split; [apply join_if_app|]. split; [apply join_if_app|].
  split; [apply join_if_idempotent|]. split; [apply join_if_idempotent|].
  apply join_if_comm.
Qed.

(** X19: [replace_spaces] keeps the length of the string, leaves no space,
    turns every space into an exclamation point beside those already there,
    and changes nothing when applied a second time. *)
Theorem replace_spaces_properties (s : string) :
  String.length (replace_spaces s) = String.length s
  ∧ count_char " " (replace_spaces s) = 0
  ∧ count_char "!" (replace_spaces s) = count_char "!" s + count_char " " s
  ∧ replace_spaces (replace_spaces s) = replace_spaces s.
Proof.
  pose proof (replace_char_length " " "!" s) as Hlen.
  pose proof (replace_char_count " " "!" s " ") as Hspace.
  pose proof (replace_char_count " " "!" s "!") as Hbang.
  fold (replace_spaces s) in Hlen, Hspace, Hbang. simpl in Hlen, Hspace, Hbang.
  assert (Hnone : count_char " " (replace_spaces s) = 0) by lia.
  split; [lia|]. split; [done|]. split; [lia|].
  by apply replace_char_absent.
Qed.

(** X20: [replace_spaces_with_triple_space] makes the string two characters
    longer for each space and triples the number of spaces; a string without
    a space is returned unchanged. *)
Theorem replace_spaces_with_triple_space_properties (s : string) :
  String.length (replace_spaces_with_triple_space s)
  = String.length s + 2 * count_char " " s
  ∧ count_char " " (replace_spaces_with_triple_space s) = 3 * count_char " " s
  ∧ (count_char " " s = 0 → replace_spaces_with_triple_space s = s).
Proof.
  pose proof (replace_char_length " " "   " s) as Hlen.
  pose proof (replace_char_count " " "   " s " ") as Hspace.
  fold (replace_spaces_with_triple_space s) in Hlen, Hspace.
  simpl in Hlen, Hspace.
  split; [lia|]. split; [lia|]. apply replace_char_absent.
Qed.

Lemma replace_spaces_with_triple_space_properties_witness :
  replace_spaces_with_triple_space "abc" = "abc".
Proof.
  by apply (replace_spaces_with_triple_space_properties "abc").
Defined.

(** * The surface format *)

(** ** The printed count *)

Section numerals.
Implicit Types (d l : Decimal.uint) (p acc : positive).











End numerals.

(** ** Telling the kinds apart *)





